(** * The AIR-Py data server: job lifecycle manager and query-plan interpreter

    A shallow embedding of [app/services/job_manager.py],
    [app/services/data_processor.py], [app/models/schemas.py],
    [app/core/config.py] and of the background tasks of
    [app/api/endpoints.py], with the properties of the specification
    stated and settled over it. *)

From Stdlib Require Import ZArith Lia Ascii String List Sorted.
From stdpp Require Import base tactics option list strings pretty gmap.

Local Set Warnings "-register-all".
Local Open Scope string_scope.
Local Open Scope list_scope.
Local Open Scope Z_scope.

(** ** Python values *)

(** The JSON-representable values that travel as [params] and [data]
    ([Dict[str, Any]] in the source).  Python's [None] is [JNull]. *)
Inductive json : Type :=
| JNull
| JBool (b : bool)
| JInt (n : Z)
| JStr (s : string)
| JList (l : list json)
| JDict (d : list (string * json)).

(** Truth value of a Python object, as tested by [if x:]. *)
Definition truthy (v : json) : bool :=
  match v with
  | JNull => false
  | JBool b => b
  | JInt n => negb (n =? 0)
  | JStr s => negb (String.eqb s "")
  | JList l => match l with [] => false | _ => true end
  | JDict d => match d with [] => false | _ => true end
  end.

(** Truth value of an [Optional[str]]: [None] and [""] are false. *)
Definition truthy_str (o : option string) : bool :=
  match o with
  | None => false
  | Some s => negb (String.eqb s "")
  end.

(** Truth value of an [Optional[int]]: [None] and [0] are false. *)
Definition truthy_int (o : option Z) : bool :=
  match o with
  | None => false
  | Some n => negb (n =? 0)
  end.

(** Truth value of an [Optional[List[_]]]: [None] and [[]] are false. *)
Definition truthy_list {A} (o : option (list A)) : bool :=
  match o with
  | None | Some [] => false
  | Some (_ :: _) => true
  end.

(** [x in [a, b, ...]] on strings. *)
Definition str_in (x : string) (l : list string) : bool :=
  existsb (String.eqb x) l.

(** ** Job lifecycle manager ([app/services/job_manager.py]) *)

Module JobManager.

(** One entry of [job_data["steps"]]. *)
Record step_data : Type := mk_step {
  step : Z;
  message : string;
  timestamp : string
}.

(** The dictionary [job_data] written to the store.  [json.dumps] followed
    by [json.loads] is the identity on these records, so the store holds
    them directly. *)
Record job_data : Type := mk_job {
  token : Z;
  type : string;
  status : string;
  created_at : string;
  params : json;
  steps : list step_data;
  data : json;
  error : option string
}.

Definition set_status (s : string) (j : job_data) : job_data :=
  mk_job (token j) (type j) s (created_at j) (params j) (steps j) (data j) (error j).
Definition set_steps (l : list step_data) (j : job_data) : job_data :=
  mk_job (token j) (type j) (status j) (created_at j) (params j) l (data j) (error j).
Definition set_data (d : json) (j : job_data) : job_data :=
  mk_job (token j) (type j) (status j) (created_at j) (params j) (steps j) d (error j).
Definition set_error (e : option string) (j : job_data) : job_data :=
  mk_job (token j) (type j) (status j) (created_at j) (params j) (steps j) (data j) e.

(** The keyed store: each key holds the time-to-live given at its last
    write and the serialized job. *)
Abbreviation redis := (gmap string (Z * job_data)).

Definition setex (key : string) (ttl : Z) (value : job_data) (r : redis) : redis :=
  <[key := (ttl, value)]> r.

Definition redis_get (key : string) (r : redis) : option job_data :=
  snd <$> r !! key.

(** Eviction of a key whose time-to-live has run out; the store does it on
    its own, at a moment the program does not choose. *)
Definition redis_expire (key : string) (r : redis) : redis :=
  delete key r.

(** The instance state of [JobManager]: the store it talks to and
    [self.job_counter]. *)
Record t : Type := mk {
  redis_client : redis;
  job_counter : Z
}.

(** [__init__] against an empty store. *)
Definition init : t := mk ∅ 0.

(** [__init__] against the store as it is: the counter starts at 0 over
    whatever an earlier process has left under its keys. *)
Definition start (r : redis) : t := mk r 0.

(** [f"job:{token}"] *)
Definition job_key (token : Z) : string := "job:" +:+ pretty token.

(** [create_job]; [now] is [datetime.now(timezone.utc).isoformat()]. *)
Definition create_job (now : string) (job_type : string) (params : json) (self : t)
  : Z * t :=
  let job_counter' := job_counter self + 1 in
  let token := job_counter' in
  let job_data :=
    {| token := token; type := job_type; status := "pending";
       created_at := now; params := params; steps := [];
       data := JNull; error := None |} in
  (token, mk (setex (job_key token) 3600 job_data (redis_client self)) job_counter').

(** [get_job] *)
Definition get_job (token : Z) (self : t) : option job_data :=
  redis_get (job_key token) (redis_client self).

(** Status of the job of a token, if it is stored. *)
Definition status_of (tok : Z) (self : t) : option string :=
  status <$> get_job tok self.

(** [update_job_status] *)
Definition update_job_status (now : string) (token : Z) (status : string)
    (step : option string) (data : json) (error : option string) (self : t) : t :=
  let job_key := job_key token in
  match get_job token self with
  | None => self
  | Some job_data =>
    let job_data := set_status status job_data in
    let job_data :=
      if truthy_str step then
        let step_data :=
          {| JobManager.step := Z.of_nat (length (steps job_data)) + 1;
             message := default "" step;
             timestamp := now |} in
        set_steps (steps job_data ++ [step_data]) job_data
      else job_data in
    let job_data := if truthy data then set_data data job_data else job_data in
    let job_data :=
      if truthy_str error then set_status "failed" (set_error error job_data)
      else job_data in
    mk (setex job_key 3600 job_data (redis_client self)) (job_counter self)
  end.

(** [cancel_job] *)
Definition cancel_job (now : string) (token : Z) (self : t) : bool * t :=
  match get_job token self with
  | Some job_data =>
    if str_in (status job_data) ["pending"; "running"] then
      (true, update_job_status now token "cancelled" (Some "Job cancelled by user")
               JNull None self)
    else (false, self)
  | None => (false, self)
  end.

(** The store evicts the record of [token]. *)
Definition expire (token : Z) (self : t) : t :=
  mk (redis_expire (job_key token) (redis_client self)) (job_counter self).

(** The calls a client of the manager can make, and the eviction the store
    can make, as data. *)
Inductive call : Type :=
| CreateJob (now job_type : string) (params : json)
| UpdateJobStatus (now : string) (token : Z) (status : string)
    (step : option string) (data : json) (error : option string)
| CancelJob (now : string) (token : Z)
| Expire (token : Z).

(** One call: the token it returns, if it is a creation, and the new state. *)
Definition exec (c : call) (self : t) : option Z * t :=
  match c with
  | CreateJob now job_type params =>
    let '(tok, self') := create_job now job_type params self in (Some tok, self')
  | UpdateJobStatus now token status step data error =>
    (None, update_job_status now token status step data error self)
  | CancelJob now token => (None, snd (cancel_job now token self))
  | Expire token => (None, expire token self)
  end.

(** A sequence of calls: the tokens handed out, in order, and the final
    state. *)
Fixpoint run (cs : list call) (self : t) : list Z * t :=
  match cs with
  | [] => ([], self)
  | c :: cs =>
    let '(o, self') := exec c self in
    let '(toks, self'') := run cs self' in
    (match o with Some tok => tok :: toks | None => toks end, self'')
  end.

(** [redis_client.keys(pattern)] for a pattern that is a prefix and a star:
    the keys that begin with the prefix, in the order the store lists them. *)
Definition redis_keys (prefix : string) (r : redis) : list string :=
  List.filter (String.prefix prefix) (map fst (map_to_list r)).

(** The loop of [list_jobs]. *)
Fixpoint list_jobs_loop (r : redis) (keys : list string) (jobs : list job_data)
  : list job_data :=
  match keys with
  | [] => jobs
  | key :: keys =>
    match redis_get key r with
    | Some job_data => list_jobs_loop r keys (jobs ++ [job_data])
    | None => list_jobs_loop r keys jobs
    end
  end.

(** [sorted(jobs, key=lambda x: x["created_at"], reverse=True)]: a stable
    sort, so a job goes before the first one that was not created later. *)
Fixpoint insert_newest_first (x : job_data) (l : list job_data) : list job_data :=
  match l with
  | [] => [x]
  | y :: l' =>
    if String.ltb (created_at x) (created_at y) then y :: insert_newest_first x l'
    else x :: l
  end.

Definition sorted_newest_first (jobs : list job_data) : list job_data :=
  foldr insert_newest_first [] jobs.

(** [list_jobs] *)
Definition list_jobs (self : t) : list job_data :=
  let keys := redis_keys "job:" (redis_client self) in
  let jobs := list_jobs_loop (redis_client self) keys [] in
  sorted_newest_first jobs.

(** [y] was created no later than [x]. *)
Definition not_older (x y : job_data) : Prop :=
  String.leb (created_at y) (created_at x) = true.

(** What holds of every entry of the store: it lies under the key of the
    token it records, the counter has passed that token, its time-to-live
    is the hour, and its steps are numbered from 1. *)
Definition well_stored (self : t) : Prop :=
  0 <= job_counter self /\
  forall key ttl job,
    redis_client self !! key = Some (ttl, job) ->
    key = job_key (token job) /\
    1 <= token job <= job_counter self /\
    ttl = 3600 /\
    map step (steps job) = seqZ 1 (Z.of_nat (length (steps job))).

(** The same of the jobs the manager has created, whatever else the store
    holds: under the key of a token from 1 to the counter lies, if
    anything, a record that carries that token, with the hour as
    time-to-live and steps numbered from 1. *)
Definition own_well_stored (self : t) : Prop :=
  0 <= job_counter self /\
  forall tok ttl job,
    1 <= tok <= job_counter self ->
    redis_client self !! job_key tok = Some (ttl, job) ->
    token job = tok /\
    ttl = 3600 /\
    map step (steps job) = seqZ 1 (Z.of_nat (length (steps job))).

(** [job'] is [job] at a later time: the same token, type, creation
    time and parameters, and the steps of [job] followed by further ones. *)
Definition extends (job job' : job_data) : Prop :=
  token job' = token job /\ type job' = type job /\
  created_at job' = created_at job /\ params job' = params job /\
  exists more, steps job' = steps job ++ more.

(** The number of creations among some calls. *)
Definition creations (cs : list call) : Z :=
  Z.of_nat (length (List.filter (fun c => match c with CreateJob _ _ _ => true | _ => false end) cs)).

(** The terminal statuses of [JobStatus] ([app/models/schemas.py]). *)
Definition terminal (s : string) : bool :=
  str_in s ["completed"; "failed"; "cancelled"].

End JobManager.

(** ** Exceptions *)

(** The errors the query engine raises. *)
Inductive polars_error : Type :=
| ColumnNotFoundError (name : string)
| DuplicateError (name : string)
| InvalidOperationError (msg : string)
| ComputeError (msg : string).

(** The exceptions of the data processor: the two it raises itself, with
    their message, and the ones that escape from the query engine. *)
Inductive exn : Type :=
| FileNotFoundError (msg : string)
| ValueError (msg : string)
| PolarsError (e : polars_error).

(** A computation that returns or raises. *)
Definition result (E A : Type) : Type := E + A.

Definition ret {E A} (a : A) : result E A := inr a.
Definition raise {E A} (e : E) : result E A := inl e.
Definition bind {E A B} (m : result E A) (k : A -> result E B) : result E B :=
  match m with
  | inl e => inl e
  | inr a => k a
  end.
(** An exception of the query engine passing through the processor. *)
Definition lift {A} (m : result polars_error A) : result exn A :=
  match m with
  | inl e => inl (PolarsError e)
  | inr a => inr a
  end.

#[global] Instance result_ret {E} : MRet (result E) := fun A => @ret E A.
#[global] Instance result_bind {E} : MBind (result E) := fun A B k m => bind m k.

(** ** The query engine (polars), as far as the processor uses it

    A data frame is kept row-major under its header; a column has one of
    the types below, and a cell is a value of that type or null. *)

Module pl.

Inductive dtype : Type := Int64 | UInt32 | Utf8.

Inductive value : Type :=
| Null
| Int (n : Z)
| Str (s : string).

Record DataFrame : Type := mkDF {
  schema : list (string * dtype);
  rows : list (list value)
}.

Definition columns (df : DataFrame) : list string := map fst (schema df).
Definition height (df : DataFrame) : Z := Z.of_nat (length (rows df)).
Definition width (df : DataFrame) : Z := Z.of_nat (length (schema df)).

(** [str(dtype)] *)
Definition dtype_str (d : dtype) : string :=
  match d with
  | Int64 => "Int64"
  | UInt32 => "UInt32"
  | Utf8 => "String"
  end.

Definition value_eqb (v w : value) : bool :=
  match v, w with
  | Null, Null => true
  | Int a, Int b => a =? b
  | Str a, Str b => String.eqb a b
  | _, _ => false
  end.

Fixpoint key_eqb (k l : list value) : bool :=
  match k, l with
  | [], [] => true
  | v :: k, w :: l => value_eqb v w && key_eqb k l
  | _, _ => false
  end.

(** Position and type of a column. *)
Fixpoint find_col (name : string) (sch : list (string * dtype)) : option (nat * dtype) :=
  match sch with
  | [] => None
  | (n, d) :: sch =>
    if String.eqb n name then Some (O, d)
    else match find_col name sch with
         | Some (i, d') => Some (S i, d')
         | None => None
         end
  end.

Definition get_col (name : string) (df : DataFrame) : result polars_error (nat * dtype) :=
  match find_col name (schema df) with
  | Some c => ret c
  | None => raise (ColumnNotFoundError name)
  end.

Definition cell (i : nat) (row : list value) : value := nth i row Null.

(** The first name that occurs twice, if any. *)
Fixpoint first_dup (names : list string) : option string :=
  match names with
  | [] => None
  | n :: names => if str_in n names then Some n else first_dup names
  end.

(** The comparisons of [pl.col(c) >= v], [<=] and [==]. *)
Inductive cmp : Type := Ge | Le | Eq.

(** A comparison on a cell: [None] where the outcome is null. *)
Definition compare_cell (c : cmp) (v : value) (lit : value) : option bool :=
  match v, lit with
  | Int a, Int b =>
    Some match c with Ge => b <=? a | Le => a <=? b | Eq => a =? b end
  | Str a, Str b =>
    Some match c with
         | Ge => String.leb b a
         | Le => String.leb a b
         | Eq => String.eqb a b
         end
  | _, _ => None
  end.

(** The literal a Python value denotes against a column of type [d]; a
    value of another kind than the column cannot be compared with it. *)
Definition literal (d : dtype) (val : json) : result polars_error value :=
  match val, d with
  | JNull, _ => ret Null
  | JInt n, (Int64 | UInt32) => ret (Int n)
  | JStr s, Utf8 => ret (Str s)
  | _, _ => raise (ComputeError "cannot compare column with value")
  end.

(** [df.filter(pl.col(col) <cmp> val)]: the rows on which the comparison is
    true, in order; rows on which it is null are dropped. *)
Definition filter (df : DataFrame) (col : string) (c : cmp) (val : json)
  : result polars_error DataFrame :=
  '(i, d) ← get_col col df;
  lit ← literal d val;
  ret (mkDF (schema df)
         (List.filter (fun row => default false (compare_cell c (cell i row) lit))
            (rows df))).

Fixpoint get_cols (names : list string) (df : DataFrame)
  : result polars_error (list (nat * dtype)) :=
  match names with
  | [] => ret []
  | n :: names =>
    c ← get_col n df;
    cs ← get_cols names df;
    ret (c :: cs)
  end.

(** [df.select(names)] *)
Definition select (df : DataFrame) (names : list string) : result polars_error DataFrame :=
  cs ← get_cols names df;
  match first_dup names with
  | Some n => raise (DuplicateError n)
  | None =>
    ret (mkDF (combine names (map snd cs))
           (map (fun row => map (fun c => cell (fst c) row) cs) (rows df)))
  end.

(** The aggregations [pl.col(col).sum().alias(name)] and
    [pl.col(col).count().alias(name)]. *)
Inductive expr : Type :=
| col_sum (col alias : string)
| col_count (col alias : string).

Definition expr_col (e : expr) : string :=
  match e with col_sum c _ | col_count c _ => c end.
Definition expr_alias (e : expr) : string :=
  match e with col_sum _ a | col_count _ a => a end.

(** Two's-complement wrap-around of a 64-bit sum. *)
Definition wrap64 (z : Z) : Z := (z + 2 ^ 63) mod 2 ^ 64 - 2 ^ 63.
Definition wrap32u (z : Z) : Z := z mod 2 ^ 32.

Definition sum_values (l : list value) : Z :=
  fold_left (fun acc v => match v with Int n => acc + n | _ => acc end) l 0.
Definition count_values (l : list value) : Z :=
  Z.of_nat (length (List.filter (fun v => negb (value_eqb v Null)) l)).

(** Type of the column an aggregation produces; a sum of strings is
    refused. *)
Definition expr_dtype (e : expr) (d : dtype) : result polars_error dtype :=
  match e, d with
  | col_sum _ _, Utf8 => raise (InvalidOperationError "sum not supported for String")
  | col_sum _ _, d => ret d
  | col_count _ _, _ => ret UInt32
  end.

(** The aggregate of one group: the sum of the non-null values, wrapped to
    the column type, or the number of non-null values. *)
Definition eval_expr (e : expr) (d : dtype) (i : nat) (group : list (list value)) : value :=
  let vals := map (cell i) group in
  match e with
  | col_sum _ _ =>
    Int (match d with UInt32 => wrap32u | _ => wrap64 end (sum_values vals))
  | col_count _ _ => Int (count_values vals)
  end.

Fixpoint resolve_exprs (es : list expr) (df : DataFrame)
  : result polars_error (list (expr * nat * dtype * dtype)) :=
  match es with
  | [] => ret []
  | e :: es =>
    '(i, d) ← get_col (expr_col e) df;
    d' ← expr_dtype e d;
    rs ← resolve_exprs es df;
    ret ((e, i, d, d') :: rs)
  end.

(** The distinct keys, by first occurrence. *)
Fixpoint distinct_keys (ks seen : list (list value)) : list (list value) :=
  match ks with
  | [] => []
  | k :: ks =>
    if existsb (key_eqb k) seen then distinct_keys ks seen
    else k :: distinct_keys ks (k :: seen)
  end.

(** [df.group_by(by).agg(aggs)]: one row per distinct tuple of the [by]
    columns, holding the tuple and then the aggregates.  The engine leaves
    the order of these rows open; here they come by first occurrence. *)
Definition group_by_agg (df : DataFrame) (by_ : list string) (aggs : list expr)
  : result polars_error DataFrame :=
  ks ← get_cols by_ df;
  rs ← resolve_exprs aggs df;
  let names := by_ ++ map expr_alias aggs in
  match first_dup names with
  | Some n => raise (DuplicateError n)
  | None =>
    let key_of row := map (fun c : nat * dtype => cell (fst c) row) ks in
    let keys := distinct_keys (map key_of (rows df)) [] in
    ret (mkDF (combine names (map snd ks ++ map (fun r => snd r) rs))
           (map (fun k =>
                   let group := List.filter (fun row => key_eqb (key_of row) k) (rows df) in
                   k ++ map (fun '(e, i, d, _) => eval_expr e d i group) rs)
              keys))
  end.

(** [df.limit(n)]: the first [n] rows; for a negative [n], all rows but the
    last [-n]. *)
Definition limit (df : DataFrame) (n : Z) : DataFrame :=
  mkDF (schema df)
    (if 0 <=? n then firstn (Z.to_nat n) (rows df)
     else firstn (length (rows df) - Z.to_nat (- n)) (rows df)).

(** [df.to_dicts()] *)
Definition to_dicts (df : DataFrame) : list (list (string * value)) :=
  map (fun row => combine (columns df) row) (rows df).

(** [df[name]]: the cells of a column, and its type. *)
Definition column (name : string) (df : DataFrame) : list value :=
  match find_col name (schema df) with
  | Some (i, _) => map (cell i) (rows df)
  | None => []
  end.

Definition column_dtype (name : string) (df : DataFrame) : dtype :=
  match find_col name (schema df) with
  | Some (_, d) => d
  | None => Utf8
  end.

(** [series.null_count()] *)
Definition null_count (l : list value) : Z :=
  Z.of_nat (length (List.filter (fun v => value_eqb v Null) l)).

End pl.

(** ** Strings and paths *)

(** [l[:n]]: the first [n] elements; for a negative [n], all but the last
    [-n]. *)
Definition slice_to {A} (n : Z) (l : list A) : list A :=
  if 0 <=? n then firstn (Z.to_nat n) l
  else firstn (length l - Z.to_nat (- n)) l.

(** [s.split(sep)] for a one-character separator. *)
Fixpoint split (sep : ascii) (s : string) : list string :=
  match s with
  | EmptyString => [EmptyString]
  | String c s' =>
    if Ascii.eqb c sep then EmptyString :: split sep s'
    else match split sep s' with
         | [] => [String c EmptyString]
         | w :: ws => String c w :: ws
         end
  end.

Definition is_space (c : ascii) : bool :=
  let n := nat_of_ascii c in
  ((9 <=? n) && (n <=? 13) || (n =? 32))%nat.

Fixpoint lstrip (s : string) : string :=
  match s with
  | EmptyString => EmptyString
  | String c s' => if is_space c then lstrip s' else s
  end.

Definition rev_string (s : string) : string :=
  string_of_list_ascii (rev (list_ascii_of_string s)).

(** [s.strip()] *)
Definition strip (s : string) : string :=
  rev_string (lstrip (rev_string (lstrip s))).

Definition lower_ascii (c : ascii) : ascii :=
  let n := nat_of_ascii c in
  if ((65 <=? n) && (n <=? 90))%nat then ascii_of_nat (n + 32) else c.

(** [s.lower()], on ASCII letters. *)
Fixpoint lower (s : string) : string :=
  match s with
  | EmptyString => EmptyString
  | String c s' => String (lower_ascii c) (lower s')
  end.

(** [s.rfind(c)], [None] for [-1]. *)
Fixpoint rfind (c : ascii) (s : string) : option nat :=
  match s with
  | EmptyString => None
  | String a s' =>
    match rfind c s' with
    | Some i => Some (S i)
    | None => if Ascii.eqb a c then Some O else None
    end
  end.

(** The string holds no path separator. *)
Fixpoint no_slash (s : string) : bool :=
  match s with
  | EmptyString => true
  | String c s' => negb (Ascii.eqb c "/") && no_slash s'
  end.

(** A [pathlib.Path]: its components below the root of the file tree. *)
Definition Path : Type := list string.

(** [Path(s)]: empty components and ["."] are dropped. *)
Definition Path_of (s : string) : Path :=
  List.filter (fun c => negb (String.eqb c "" || String.eqb c ".")) (split "/" s).

(** [str(path)] *)
Definition Path_str (p : Path) : string :=
  match p with
  | [] => "."
  | _ => String.concat "/" p
  end.

(** [path.name] *)
Definition Path_name (p : Path) : string := List.last p "".

(** [path.suffix]: the final component from its last dot on, unless that
    dot opens or closes the component. *)
Definition Path_suffix (p : Path) : string :=
  let name := Path_name p in
  match rfind "." name with
  | Some i =>
    if ((0 <? i) && (i <? String.length name - 1))%nat
    then substring i (String.length name - i) name
    else ""
  | None => ""
  end.

(** ** The file tree *)

Inductive node : Type :=
| File (st_size st_mtime : Z)
| Dir (entries : list (string * node)).

Fixpoint child (name : string) (entries : list (string * node)) : option node :=
  match entries with
  | [] => None
  | (n, c) :: entries => if String.eqb n name then Some c else child name entries
  end.

Fixpoint resolve (fs : node) (p : Path) : option node :=
  match p with
  | [] => Some fs
  | c :: p =>
    match fs with
    | Dir entries =>
      match child c entries with
      | Some n => resolve n p
      | None => None
      end
    | File _ _ => None
    end
  end.

(** The entries of a directory, as paths, in the order the file system
    lists them. *)
Definition listdir (p : Path) (n : node) : list Path :=
  match n with
  | Dir entries => map (fun e => p ++ [fst e]) entries
  | File _ _ => []
  end.

(** A directory and the directories below it, each before its own
    subdirectories. *)
Fixpoint walk (p : Path) (n : node) : list (Path * node) :=
  match n with
  | File _ _ => []
  | Dir entries => (p, n) :: flat_map (fun e => walk (p ++ [fst e]) (snd e)) entries
  end.

(** ** Settings ([app/core/config.py]) *)

Record Settings : Type := mkSettings {
  max_rows_return_json : Z;
  infer_rows : Z;
  allowed_extensions : string
}.

Definition default_settings : Settings :=
  {| max_rows_return_json := 50000;
     infer_rows := 20000;
     allowed_extensions := ".csv,.parquet,.jsonl" |}.

(** [allowed_extensions_list] *)
Definition allowed_extensions_list (self : Settings) : list string :=
  map strip (split "," (allowed_extensions self)).

(** ** Request models ([app/models/schemas.py]) *)

(** A filter [{"col": .., "op": .., "val": ..}] that carries its three keys,
    the first two as strings.  The loop indexes the dictionary, so one
    that lacks a key ends the query with a [KeyError] there; such
    dictionaries are not values of this type. *)
Record filter_cond : Type := mkFilter {
  filter_col : string;
  filter_op : string;
  filter_val : json
}.

(** An aggregate [{"col": .., "fn": ..}] that carries its two keys; as for
    a filter, a dictionary that lacks one is not a value of this type. *)
Record agg_spec : Type := mkAgg {
  agg_col : string;
  agg_fn : string
}.

(** [QueryPlan], validated: [limit] is an integer, 50000 unless the request
    gives one. *)
Record QueryPlan : Type := mkQueryPlan {
  qp_dataset : string;
  qp_filters : option (list filter_cond);
  qp_select : option (list string);
  qp_groupby : option (list string);
  qp_aggs : option (list agg_spec);
  qp_grain : option string;
  qp_order : option (list (list (string * string)));
  qp_limit : Z
}.

(** Validation of a request body: the field default fills in for an absent
    ["limit"]. *)
Definition QueryPlan_new (dataset : string) (filters : option (list filter_cond))
    (select groupby : option (list string)) (aggs : option (list agg_spec))
    (grain : option string) (order : option (list (list (string * string))))
    (limit : option Z) : QueryPlan :=
  mkQueryPlan dataset filters select groupby aggs grain order (default 50000 limit).

(** The plan as the dictionary [execute_query] receives; [plan.get(k)] is
    [None] for a key that is absent or null. *)
Record plan_dict : Type := mkPlan {
  dataset : string;
  filters : option (list filter_cond);
  select : option (list string);
  groupby : option (list string);
  aggs : option (list agg_spec);
  grain : option string;
  order : option (list (list (string * string)));
  limit : option Z
}.

(** The plan with other filters, and the plan without grouping. *)
Definition with_filters (fl : option (list filter_cond)) (p : plan_dict) : plan_dict :=
  mkPlan (dataset p) fl (select p) (groupby p) (aggs p) (grain p) (order p) (limit p).

Definition with_aggs (al : option (list agg_spec)) (p : plan_dict) : plan_dict :=
  mkPlan (dataset p) (filters p) (select p) (groupby p) al (grain p) (order p) (limit p).

Definition without_grouping (p : plan_dict) : plan_dict :=
  mkPlan (dataset p) (filters p) (select p) None None (grain p) (order p) (limit p).

(** [QueryPlan.dict()] *)
Definition QueryPlan_dict (p : QueryPlan) : plan_dict :=
  mkPlan (qp_dataset p) (qp_filters p) (qp_select p) (qp_groupby p) (qp_aggs p)
    (qp_grain p) (qp_order p) (Some (qp_limit p)).

(** ** Data processor ([app/services/data_processor.py]) *)

Module DataProcessor.

(** What [_get_file_info] returns. *)
Record file_info : Type := mk_info {
  path : string;
  name : string;
  size : Z;
  modified : Z;
  extension : string
}.

(** What [execute_query] returns, by output format. *)
Inductive query_result : Type :=
| Arrow (data : pl.DataFrame) (metrics_rows metrics_columns : Z)
| Json (rows : list (list (string * pl.value))) (schema_fields : list (string * string))
    (metrics_rows metrics_columns : Z).

Definition metrics (r : query_result) : Z * Z :=
  match r with
  | Arrow _ rows columns | Json _ _ rows columns => (rows, columns)
  end.

(** The number of rows the result carries. *)
Definition result_height (r : query_result) : Z :=
  match r with
  | Arrow data _ _ => pl.height data
  | Json rows _ _ _ => Z.of_nat (length rows)
  end.

(** What [preview_data] returns. *)
Record preview : Type := mk_preview {
  preview_rows : list (list (string * pl.value));
  preview_fields : list (string * string);
  preview_sampled : bool;
  preview_total_rows : Z
}.

(** What [infer_schema] returns: per field its name, type and whether it
    is nullable; the statistics, where a null ratio is kept as the two
    operands of its division (0 over 1 for the literal 0). *)
Record inferred : Type := mk_inferred {
  schema_fields : list (string * string * bool);
  stats_rows : Z;
  stats_columns : Z;
  stats_null_ratio : list (string * (Z * Z))
}.

(** The number of columns the result carries. *)
Definition result_width (r : query_result) : Z :=
  match r with
  | Arrow data _ _ => pl.width data
  | Json _ fields _ _ => Z.of_nat (length fields)
  end.

Section processor.

(** The settings in force, the file tree the processor reads, and the three
    readers of the query engine, which decode the file at a path, up to
    [n_rows] rows of it. *)
Variable settings : Settings.
Variable fs : node.
Variables read_csv read_parquet read_ndjson :
  string -> option Z -> result polars_error pl.DataFrame.

Definition exists_ (p : Path) : bool :=
  match resolve fs p with Some _ => true | None => false end.

Definition is_file (p : Path) : bool :=
  match resolve fs p with Some (File _ _) => true | _ => false end.

(** [path.glob(pattern)] for the two patterns in use. *)
Definition glob (p : Path) (pattern : string) : list Path :=
  match resolve fs p with
  | Some n =>
    if String.eqb pattern "**/*" then flat_map (fun d => listdir (fst d) (snd d)) (walk p n)
    else if String.eqb pattern "*" then listdir p n
    else []
  | None => []
  end.

(** [_is_supported_file] *)
Definition _is_supported_file (file_path : Path) : bool :=
  str_in (lower (Path_suffix file_path)) (allowed_extensions_list settings).

(** The test of the discovery loop on an entry. *)
Definition eligible (file_path : Path) : bool :=
  is_file file_path && _is_supported_file file_path.

(** [_get_file_info] *)
Definition _get_file_info (file_path : Path) : file_info :=
  let stat :=
    match resolve fs file_path with
    | Some (File st_size st_mtime) => (st_size, st_mtime)
    | _ => (0, 0)
    end in
  {| path := Path_str file_path;
     name := Path_name file_path;
     size := fst stat;
     modified := snd stat;
     extension := Path_suffix file_path |}.

(** The descriptors of the eligible ones among some entries. *)
Definition infos (entries : list Path) : list file_info :=
  map _get_file_info (List.filter eligible entries).

(** The most descriptors a cap lets through: the loop tests the cap after
    it has appended, so at least one. *)
Definition cap (m : Z) : nat := Z.to_nat (Z.max 1 m).

(** The loop of [discover_files] over the entries the glob yields: the
    files collected, and the entries left unread when the loop ends. *)
Fixpoint discover_loop (max_files : option Z) (entries : list Path) (files : list file_info)
  : list file_info * list Path :=
  match entries with
  | [] => (files, [])
  | file_path :: entries =>
    if is_file file_path && _is_supported_file file_path then
      let files := files ++ [_get_file_info file_path] in
      if truthy_int max_files && (default 0 max_files <=? Z.of_nat (length files))
      then (files, entries)
      else discover_loop max_files entries files
    else discover_loop max_files entries files
  end.

(** [discover_files] *)
Definition discover_files (datasource_id uri : string) (recurse : bool)
    (max_files : option Z) : result exn (list file_info) :=
  let files := [] in
  let path := Path_of uri in
  if negb (exists_ path) then raise (FileNotFoundError ("Path not found: " +:+ uri))
  else if is_file path then
    ret (if _is_supported_file path then files ++ [_get_file_info path] else files)
  else
    let pattern := if recurse then "**/*" else "*" in
    ret (fst (discover_loop max_files (glob path pattern) files)).

(** [_load_file] *)
Definition _load_file (file_path : string) (n_rows : option Z) : result exn pl.DataFrame :=
  let path := Path_of file_path in
  if String.eqb (lower (Path_suffix path)) ".csv" then lift (read_csv file_path n_rows)
  else if String.eqb (lower (Path_suffix path)) ".parquet" then
    lift (read_parquet file_path n_rows)
  else if String.eqb (lower (Path_suffix path)) ".jsonl" then
    lift (read_ndjson file_path n_rows)
  else raise (ValueError ("Unsupported file format: " +:+ Path_suffix path)).

(** The operators the filter loop knows. *)
Definition supported_op (op : string) : bool := str_in op [">="; "<="; "=="].

(** The aggregate functions the aggregate loop knows. *)
Definition supported_fn (fn : string) : bool := str_in fn ["sum"; "count"].

(** The comparison an operator of the filter loop stands for. *)
Definition cmp_of_op (op : string) : option pl.cmp :=
  if String.eqb op ">=" then Some pl.Ge
  else if String.eqb op "<=" then Some pl.Le
  else if String.eqb op "==" then Some pl.Eq
  else None.

(** Whether a row of a table with header [sch] passes a filter: its cell
    in the column compares as asked with the value; a filter with another
    operator lets every row pass. *)
Definition filter_holds (sch : list (string * pl.dtype)) (c : filter_cond)
    (row : list pl.value) : bool :=
  match cmp_of_op (filter_op c) with
  | None => true
  | Some cm =>
    match pl.find_col (filter_col c) sch with
    | Some (i, d) =>
      match pl.literal d (filter_val c) with
      | inr lit => default false (pl.compare_cell cm (pl.cell i row) lit)
      | inl _ => false
      end
    | None => false
    end
  end.

(** The filter loop of [execute_query]. *)
Fixpoint apply_filter_list (fl : list filter_cond) (df : pl.DataFrame)
  : result exn pl.DataFrame :=
  match fl with
  | [] => ret df
  | filter_cond :: fl =>
    let col := filter_col filter_cond in
    let op := filter_op filter_cond in
    let val := filter_val filter_cond in
    df ← (if String.eqb op ">=" then lift (pl.filter df col pl.Ge val)
          else if String.eqb op "<=" then lift (pl.filter df col pl.Le val)
          else if String.eqb op "==" then lift (pl.filter df col pl.Eq val)
          else ret df);
    apply_filter_list fl df
  end.

(** "Apply filters if specified" *)
Definition apply_filters (plan : plan_dict) (df : pl.DataFrame) : result exn pl.DataFrame :=
  if truthy_list (filters plan) then apply_filter_list (default [] (filters plan)) df
  else ret df.

(** "Apply select if specified" *)
Definition apply_select (plan : plan_dict) (df : pl.DataFrame) : result exn pl.DataFrame :=
  if truthy_list (select plan) then lift (pl.select df (default [] (select plan)))
  else ret df.

(** The loop that collects [agg_exprs]. *)
Fixpoint agg_exprs (al : list agg_spec) : list pl.expr :=
  match al with
  | [] => []
  | agg :: al =>
    let col := agg_col agg in
    let fn := agg_fn agg in
    if String.eqb fn "sum" then pl.col_sum col ("sum_" +:+ col) :: agg_exprs al
    else if String.eqb fn "count" then pl.col_count col ("count_" +:+ col) :: agg_exprs al
    else agg_exprs al
  end.

(** "Apply groupby and aggregations if specified" *)
Definition apply_groupby_aggs (plan : plan_dict) (df : pl.DataFrame)
  : result exn pl.DataFrame :=
  if truthy_list (groupby plan) && truthy_list (aggs plan) then
    let group_cols := default [] (groupby plan) in
    lift (pl.group_by_agg df group_cols (agg_exprs (default [] (aggs plan))))
  else ret df.

(** "Apply limit" *)
Definition apply_limit (plan : plan_dict) (df : pl.DataFrame) : pl.DataFrame :=
  if truthy_int (limit plan) then pl.limit df (default 0 (limit plan)) else df.

(** The two encodings of the result. *)
Definition encode (output_format : string) (df : pl.DataFrame) : query_result :=
  if String.eqb output_format "arrow" then Arrow df (pl.height df) (pl.width df)
  else
    Json (pl.to_dicts df)
      (map (fun c => (fst c, pl.dtype_str (snd c))) (pl.schema df))
      (pl.height df) (pl.width df).

(** [execute_query] *)
Definition execute_query (datasource_id : string) (plan : plan_dict)
    (output_format : string) : result exn query_result :=
  files ← discover_files datasource_id (dataset plan) true None;
  match files with
  | [] => raise (ValueError "No files found for dataset")
  | file0 :: _ =>
    df ← _load_file (path file0) None;
    df ← apply_filters plan df;
    df ← apply_select plan df;
    df ← apply_groupby_aggs plan df;
    let df := apply_limit plan df in
    ret (encode output_format df)
  end.

(** The query step of the job: the validated plan of the request, passed
    on as a dictionary ([request.plan.dict()] in the endpoints). *)
Definition query (datasource_id : string) (plan : QueryPlan) (output : string)
  : result exn query_result :=
  execute_query datasource_id (QueryPlan_dict plan) output.

(** [infer_schema] *)
Definition infer_schema (datasource_id uri : string) (sample_files : option Z)
    (infer_rows : Z) : result exn inferred :=
  files ← discover_files datasource_id uri true sample_files;
  match files with
  | [] => raise (ValueError "No supported files found")
  | file0 :: _ =>
    let sample_file := path file0 in
    df ← _load_file sample_file (Some infer_rows);
    let schema :=
      map (fun col =>
             (col, pl.dtype_str (pl.column_dtype col df),
              0 <? pl.null_count (pl.column col df)))
        (pl.columns df) in
    let null_ratio :=
      map (fun col =>
             (col, if 0 <? pl.height df
                   then (pl.null_count (pl.column col df), pl.height df)
                   else (0, 1)))
        (pl.columns df) in
    ret (mk_inferred schema (pl.height df) (pl.width df) null_ratio)
  end.

(** [preview_data] *)
Definition preview_data (datasource_id : string) (path : option string) (limit : Z)
  : result exn preview :=
  path ← (if negb (truthy_str path) then
            files ← discover_files datasource_id "." true (Some 1);
            match files with
            | [] => raise (ValueError "No files found")
            | file0 :: _ => ret (DataProcessor.path file0)
            end
          else ret (default "" path));
  df ← _load_file path (Some limit);
  ret (mk_preview (slice_to limit (pl.to_dicts df))
         (map (fun col => (col, pl.dtype_str (pl.column_dtype col df))) (pl.columns df))
         true (pl.height df)).

End processor.

End DataProcessor.

(** ** The endpoints and their background tasks ([app/api/endpoints.py])

    A POST endpoint creates a job and schedules its [_process_*] task; the
    task reports ["running"], computes, and reports ["completed"] with the
    result or, from its [except] branch, ["failed"] with the message of the
    exception.  The DELETE endpoint cancels, and the store evicts.  These
    happen in any interleaving. *)

Module Endpoints.

(** Where the background task of a job stands. *)
Inductive phase : Type := Scheduled | Computing | Finished.

#[global] Instance phase_eq_dec : EqDecision phase.
Proof. solve_decision. Defined.

Record system : Type := mkSystem {
  job_manager : JobManager.t;
  tasks : gmap Z phase
}.

Definition init : system := mkSystem JobManager.init ∅.

(** The process at its start over the store as it is: no task yet. *)
Definition start (r : gmap string (Z * JobManager.job_data)) : system :=
  mkSystem (JobManager.start r) ∅.

Inductive event : Type :=
| Submit (now job_type : string) (params : json)
| Running (now : string) (token : Z) (msg : string)
| Completed (now : string) (token : Z) (msg : string) (data : json)
| Failed (now : string) (token : Z) (err : string)
| Cancel (now : string) (token : Z)
| Evict (token : Z).

(** One event; [None] when the task of the token is not at the point where
    it makes that call. *)
Definition step (e : event) (s : system) : option system :=
  let jm := job_manager s in
  match e with
  | Submit now job_type params =>
    let '(token, jm') := JobManager.create_job now job_type params jm in
    Some (mkSystem jm' (<[token := Scheduled]> (tasks s)))
  | Running now token msg =>
    if decide (tasks s !! token = Some Scheduled) then
      Some (mkSystem
              (JobManager.update_job_status now token "running" (Some msg) JNull None jm)
              (<[token := Computing]> (tasks s)))
    else None
  | Completed now token msg data =>
    if decide (tasks s !! token = Some Computing) then
      Some (mkSystem
              (JobManager.update_job_status now token "completed" (Some msg) data None jm)
              (<[token := Finished]> (tasks s)))
    else None
  | Failed now token err =>
    if decide (tasks s !! token = Some Scheduled ∨ tasks s !! token = Some Computing) then
      Some (mkSystem
              (JobManager.update_job_status now token "failed" None JNull (Some err) jm)
              (<[token := Finished]> (tasks s)))
    else None
  | Cancel now token =>
    Some (mkSystem (snd (JobManager.cancel_job now token jm)) (tasks s))
  | Evict token =>
    Some (mkSystem (JobManager.expire token jm) (tasks s))
  end.

Fixpoint steps (es : list event) (s : system) : option system :=
  match es with
  | [] => Some s
  | e :: es =>
    match step e s with
    | Some s' => steps es s'
    | None => None
    end
  end.

(** Every stored job that carries an error is failed. *)
Definition error_implies_failed (jm : JobManager.t) : Prop :=
  forall token job,
    JobManager.get_job token jm = Some job ->
    JobManager.error job <> None -> JobManager.status job = "failed".

(** A stored job that carries an error is failed, and its task has made
    its last call. *)
Definition task_invariant (s : system) : Prop :=
  forall token job,
    JobManager.get_job token (job_manager s) = Some job ->
    JobManager.error job <> None ->
    JobManager.status job = "failed" /\ tasks s !! token = Some Finished.

(** No task is under way for a token whose stored job is completed or
    failed. *)
Definition closed_jobs_idle (s : system) : Prop :=
  forall token job,
    JobManager.get_job token (job_manager s) = Some job ->
    JobManager.status job = "completed" \/ JobManager.status job = "failed" ->
    tasks s !! token <> Some Scheduled /\ tasks s !! token <> Some Computing.

(** *** The job endpoints *)

(** [JobStatus] *)
Inductive JobStatus : Type := PENDING | RUNNING | COMPLETED | FAILED | CANCELLED.

(** [JobStatus(value)]; [None] stands for the [ValueError] raised on a
    value that names no member. *)
Definition JobStatus_of (value : string) : option JobStatus :=
  if String.eqb value "pending" then Some PENDING
  else if String.eqb value "running" then Some RUNNING
  else if String.eqb value "completed" then Some COMPLETED
  else if String.eqb value "failed" then Some FAILED
  else if String.eqb value "cancelled" then Some CANCELLED
  else None.

(** [JobStatusResponse] *)
Record JobStatusResponse : Type := mkResponse {
  resp_token : Z;
  resp_status : JobStatus;
  resp_steps : list JobManager.step_data;
  resp_data : json;
  resp_code : Z;
  resp_error : option string
}.

(** What a handler gives: a body, an [HTTPException], or an exception it
    does not handle. *)
Inductive response (A : Type) : Type :=
| Body (body : A)
| HTTPException (status_code : Z) (detail : string)
| Unhandled (msg : string).
Arguments Body {A}.
Arguments HTTPException {A}.
Arguments Unhandled {A}.

(** [get_job_status] *)
Definition get_job_status (token : Z) (jm : JobManager.t) : response JobStatusResponse :=
  match JobManager.get_job token jm with
  | None => HTTPException 404 "Job not found"
  | Some job_data =>
    match JobStatus_of (JobManager.status job_data) with
    | None => Unhandled ("'" +:+ JobManager.status job_data +:+ "' is not a valid JobStatus")
    | Some status =>
      Body (mkResponse (JobManager.token job_data) status (JobManager.steps job_data)
              (JobManager.data job_data)
              (if negb (String.eqb (JobManager.status job_data) "failed") then 200 else 500)
              (JobManager.error job_data))
    end
  end.

(** *** The background tasks *)

(** The [data] a task hands over: a value [json.dumps] accepts, or a
    non-empty dictionary holding an object of a type it refuses. *)
Inductive task_data : Type :=
| Dumps (j : json)
| Holds (type_name : string).

(** [update_job_status] on such data: [json.dumps] raises its [TypeError],
    with the message below, once the job has been read and before the
    store is written. *)
Definition update_job_status_dumps (now : string) (token : Z) (status : string)
    (step : option string) (data : task_data) (error : option string)
    (jm : JobManager.t) : result string JobManager.t :=
  match data with
  | Dumps j => inr (JobManager.update_job_status now token status step j error jm)
  | Holds type_name =>
    match JobManager.get_job token jm with
    | None => inr jm
    | Some _ => inl ("Object of type " +:+ type_name +:+ " is not JSON serializable")
    end
  end.

Definition file_info_json (f : DataProcessor.file_info) : json :=
  JDict [("path", JStr (DataProcessor.path f)); ("name", JStr (DataProcessor.name f));
         ("size", JInt (DataProcessor.size f)); ("modified", JInt (DataProcessor.modified f));
         ("extension", JStr (DataProcessor.extension f))].

Definition value_json (v : pl.value) : json :=
  match v with
  | pl.Null => JNull
  | pl.Int n => JInt n
  | pl.Str s => JStr s
  end.

(** The dictionary [execute_query] returns, as task data: the arrow
    encoding holds a [pyarrow.Table]. *)
Definition query_result_data (r : DataProcessor.query_result) : task_data :=
  match r with
  | DataProcessor.Arrow _ _ _ => Holds "Table"
  | DataProcessor.Json rows fields n_rows n_columns =>
    Dumps (JDict [("format", JStr "json");
                  ("rows", JList (map (fun row => JDict (map (fun c => (fst c, value_json (snd c))) row)) rows));
                  ("schema", JDict [("fields",
                     JList (map (fun c => JDict [("name", JStr (fst c)); ("type", JStr (snd c))]) fields))]);
                  ("metrics", JDict [("rows", JInt n_rows); ("columns", JInt n_columns)])])
  end.

Section tasks.

(** The settings, the file tree and the readers of the data processor, and
    the text of an exception of the query engine. *)
Variable settings : Settings.
Variable fs : node.
Variables read_csv read_parquet read_ndjson :
  string -> option Z -> result polars_error pl.DataFrame.
Variable polars_str : polars_error -> string.

(** [str(e)] *)
Definition str_exn (e : exn) : string :=
  match e with
  | FileNotFoundError msg | ValueError msg => msg
  | PolarsError e => polars_str e
  end.

(** [_process_discover]; the two times are those of its two updates. *)
Definition _process_discover (now1 now2 : string) (token : Z) (datasource_id uri : string)
    (recurse : bool) (max_files : option Z) (jm : JobManager.t) : JobManager.t :=
  let jm :=
    JobManager.update_job_status now1 token "running" (Some "Starting file discovery")
      JNull None jm in
  match DataProcessor.discover_files settings fs datasource_id uri recurse max_files with
  | inr files =>
    JobManager.update_job_status now2 token "completed"
      (Some ("Found " +:+ pretty (length files) +:+ " files"))
      (JDict [("files", JList (map file_info_json files))]) None jm
  | inl e =>
    JobManager.update_job_status now2 token "failed" None JNull (Some (str_exn e)) jm
  end.

(** [_process_query] *)
Definition _process_query (now1 now2 : string) (token : Z) (datasource_id : string)
    (plan : plan_dict) (output_format : string) (jm : JobManager.t) : JobManager.t :=
  let jm :=
    JobManager.update_job_status now1 token "running" (Some "Executing query")
      JNull None jm in
  let failed (msg : string) :=
    JobManager.update_job_status now2 token "failed" None JNull (Some msg) jm in
  match DataProcessor.execute_query settings fs read_csv read_parquet read_ndjson
          datasource_id plan output_format with
  | inr query_result =>
    match update_job_status_dumps now2 token "completed"
            (Some ("Query completed: " +:+ pretty (fst (DataProcessor.metrics query_result))
                   +:+ " rows"))
            (query_result_data query_result) None jm with
    | inr jm' => jm'
    | inl msg => failed msg
    end
  | inl e => failed (str_exn e)
  end.

End tasks.

(** Every stored job has one of the five statuses. *)
Definition status_invariant (s : system) : Prop :=
  forall token job,
    JobManager.get_job token (job_manager s) = Some job ->
    In (JobManager.status job) ["pending"; "running"; "completed"; "failed"; "cancelled"].

End Endpoints.

(** ** Sample data *)

Module Sample.

(** A reader over a table of decoded files: the first [n_rows] rows of the
    file at the path, when it holds one. *)
Definition read_from (files : list (string * pl.DataFrame)) (file_path : string)
    (n_rows : option Z) : result polars_error pl.DataFrame :=
  match List.find (fun f => String.eqb (fst f) file_path) files with
  | Some f => ret (match n_rows with Some n => pl.limit (snd f) n | None => snd f end)
  | None => raise (ComputeError ("cannot read " +:+ file_path))
  end.

(** The rows [{a:1,b:10}, {a:2,b:20}, {a:1,b:30}]. *)
Definition table3 : pl.DataFrame :=
  pl.mkDF [("a", pl.Int64); ("b", pl.Int64)]
    [[pl.Int 1; pl.Int 10]; [pl.Int 2; pl.Int 20]; [pl.Int 1; pl.Int 30]].

(** The same with a null in [b]. *)
Definition table4 : pl.DataFrame :=
  pl.mkDF [("a", pl.Int64); ("b", pl.Int64)]
    [[pl.Int 1; pl.Int 10]; [pl.Int 2; pl.Int 20]; [pl.Int 1; pl.Null]; [pl.Int 1; pl.Int 30]].

(** A data set of one line-delimited file. *)
Definition fs1 : node := Dir [("data", Dir [("t.jsonl", File 64 0)])].
Definition read1 := read_from [("data/t.jsonl", table3)].
Definition read4 := read_from [("data/t.jsonl", table4)].

(** A directory of five eligible files, among others. *)
Definition fs5 : node :=
  Dir [("in", Dir [("a.csv", File 10 1); ("notes.txt", File 3 1);
                   ("b.CSV", File 20 2); ("sub", Dir [("e.csv", File 50 5)]);
                   ("c.jsonl", File 30 3); ("d.parquet", File 40 4)])].

(** The plan [{filters:[{a,==,1}], groupby:[a], aggs:[{b,sum}]}] of a
    request, and the same with another operator in the filter. *)
Definition plan_sum : QueryPlan :=
  QueryPlan_new "data" (Some [mkFilter "a" "==" (JInt 1)]) None (Some ["a"])
    (Some [mkAgg "b" "sum"]) None None None.

Definition plan_ne : QueryPlan :=
  QueryPlan_new "data" (Some [mkFilter "a" "!=" (JInt 1)]) None None None None None None.

(** A plan that asks for no rows. *)
Definition plan_limit0 : QueryPlan :=
  QueryPlan_new "data" None None None None None None (Some 0).

End Sample.

(** * Properties *)

(** ** Job lifecycle manager *)

Section JobManagerFacts.

Import JobManager.

#[local] Instance job_key_inj : Inj (=) (=) job_key.
Proof.
  intros t1 t2 H. unfold job_key in H.
  apply (inj (String.append "job:")) in H. by apply (inj pretty) in H.
Qed.

Example job_key_7 : job_key 7 = "job:7".
Proof. reflexivity. Qed.

Lemma get_job_setex token key job (r : redis) n :
  get_job token (mk (setex key 3600 job r) n) =
  if decide (key = job_key token) then Some job else get_job token (mk r n).
Proof.
  unfold get_job, redis_get, setex. simpl.
  rewrite lookup_insert. by case_decide.
Qed.

(** What [update_job_status] leaves under the token it is given. *)
Lemma get_job_update now token st stp d e self job :
  get_job token self = Some job ->
  exists job',
    get_job token (update_job_status now token st stp d e self) = Some job' /\
    status job' = (if truthy_str e then "failed" else st) /\
    steps job' =
      (if truthy_str stp
       then steps job ++ [mk_step (Z.of_nat (length (steps job)) + 1) (default "" stp) now]
       else steps job) /\
    data job' = (if truthy d then d else data job) /\
    error job' = (if truthy_str e then e else error job) /\
    JobManager.token job' = JobManager.token job /\ type job' = type job /\
    created_at job' = created_at job /\ params job' = params job.
Proof.
  intros Hget. unfold update_job_status. rewrite Hget.
  eexists. split.
  - rewrite get_job_setex. rewrite decide_True by done. reflexivity.
  - destruct (truthy_str stp), (truthy d), (truthy_str e); simpl; repeat split; done.
Qed.

(** Other tokens are not touched. *)
Lemma get_job_update_ne now token st stp d e self token' :
  token' <> token ->
  get_job token' (update_job_status now token st stp d e self) = get_job token' self.
Proof.
  intros Hne. unfold update_job_status.
  destruct (get_job token self) eqn:Hget; [|done].
  rewrite get_job_setex. rewrite decide_False; [by destruct self|].
  intros Heq. by apply (inj job_key) in Heq.
Qed.

Lemma get_job_update_None now token st stp d e self :
  get_job token self = None ->
  update_job_status now token st stp d e self = self.
Proof. intros Hget. unfold update_job_status. by rewrite Hget. Qed.

Lemma job_counter_update now token st stp d e self :
  job_counter (update_job_status now token st stp d e self) = job_counter self.
Proof. unfold update_job_status. by destruct (get_job token self). Qed.

Lemma job_counter_cancel now token self :
  job_counter (snd (cancel_job now token self)) = job_counter self.
Proof.
  unfold cancel_job. destruct (get_job token self); [|done].
  destruct (str_in _ _); [|done]. apply job_counter_update.
Qed.

Lemma str_in_spec x l : str_in x l = true <-> In x l.
Proof.
  unfold str_in. rewrite existsb_exists. split.
  - intros (y & Hy & Heq). apply String.eqb_eq in Heq. by subst.
  - intros Hin. exists x. split; [done|]. apply String.eqb_refl.
Qed.

Lemma cancellable_spec s :
  str_in s ["pending"; "running"] = true <-> s = "pending" \/ s = "running".
Proof. rewrite str_in_spec. simpl. intuition congruence. Qed.

Lemma terminal_not_cancellable s :
  terminal s = true -> str_in s ["pending"; "running"] = false.
Proof.
  unfold terminal. rewrite str_in_spec. simpl.
  intros [<-|[<-|[<-|[]]]]; reflexivity.
Qed.

Lemma get_job_create now ty ps self tok :
  get_job tok (snd (create_job now ty ps self)) =
  if decide (tok = job_counter self + 1)
  then Some (mk_job (job_counter self + 1) ty "pending" now ps [] JNull None)
  else get_job tok self.
Proof.
  unfold create_job. simpl. rewrite get_job_setex.
  destruct (decide (tok = job_counter self + 1)) as [->|Hne].
  - by rewrite decide_True.
  - rewrite decide_False; [by destruct self|].
    intros Heq. by apply (inj job_key) in Heq.
Qed.

Lemma get_job_expire tok tok' self :
  get_job tok' (expire tok self) = if decide (tok' = tok) then None else get_job tok' self.
Proof.
  unfold expire, get_job, redis_get, redis_expire. simpl.
  destruct (decide (tok' = tok)) as [->|Hne].
  - by rewrite lookup_delete_eq.
  - rewrite lookup_delete_ne; [done|].
    intros Heq. by apply (inj job_key) in Heq.
Qed.

(** [cancel_job] on a job that can be cancelled, and on one that cannot. *)
Lemma cancel_job_live now tok self job :
  get_job tok self = Some job ->
  str_in (status job) ["pending"; "running"] = true ->
  cancel_job now tok self =
    (true, update_job_status now tok "cancelled" (Some "Job cancelled by user") JNull None self).
Proof. intros Hget Hst. unfold cancel_job. by rewrite Hget, Hst. Qed.

Lemma cancel_job_dead now tok self job :
  get_job tok self = Some job ->
  str_in (status job) ["pending"; "running"] = false ->
  cancel_job now tok self = (false, self).
Proof. intros Hget Hst. unfold cancel_job. by rewrite Hget, Hst. Qed.

Lemma cancel_job_unknown now tok self :
  get_job tok self = None -> cancel_job now tok self = (false, self).
Proof. intros Hget. unfold cancel_job. by rewrite Hget. Qed.

Lemma job_counter_exec c self :
  job_counter (snd (exec c self)) =
  job_counter self + creations [c].
Proof.
  destruct c; unfold creations; simpl.
  - lia.
  - rewrite job_counter_update. lia.
  - rewrite job_counter_cancel. lia.
  - lia.
Qed.

Lemma exec_token c self :
  fst (exec c self) =
  match c with CreateJob _ _ _ => Some (job_counter self + 1) | _ => None end.
Proof. by destruct c. Qed.

Lemma creations_cons c cs : creations (c :: cs) = creations [c] + creations cs.
Proof. unfold creations. simpl. destruct c; simpl; lia. Qed.

(** The tokens of a run are the integers that follow the counter. *)
Lemma run_tokens cs : forall self,
  fst (run cs self) = seqZ (job_counter self + 1) (creations cs) /\
  job_counter (snd (run cs self)) = job_counter self + creations cs.
Proof.
  induction cs as [|c cs IH]; intros self.
  - split; [reflexivity | unfold creations; simpl; lia].
  - simpl. pose proof (exec_token c self) as Ho.
    pose proof (job_counter_exec c self) as Hc.
    destruct (exec c self) as [o self']. simpl in Ho, Hc. subst o.
    specialize (IH self'). destruct (run cs self') as [toks self''].
    simpl in IH. destruct IH as [-> Hc2].
    rewrite creations_cons. split; [|simpl; lia]. simpl. rewrite Hc.
    destruct c as [now ty ps| | |];
      try (change (creations [_]) with 0; by rewrite !Z.add_0_r, ?Z.add_0_l).
    change (creations [CreateJob now ty ps]) with 1.
    rewrite (seqZ_cons (job_counter self + 1) (1 + creations cs))
      by (unfold creations; lia).
    f_equal. f_equal; lia.
Qed.

Lemma seqZ_sorted n : forall m, StronglySorted Z.lt (seqZ m (Z.of_nat n)).
Proof.
  induction n as [|n IH]; intros m.
  - rewrite seqZ_nil by lia. constructor.
  - rewrite seqZ_cons by lia. replace (Z.pred (Z.of_nat (S n))) with (Z.of_nat n) by lia.
    constructor; [apply IH|]. apply Forall_seqZ. lia.
Qed.

(** *** Cancellation *)

(** C2. For a stored job, [cancel_job] returns [True] exactly when the
    status is ["pending"] or ["running"]; it then sets the status to
    ["cancelled"] and appends one step, and changes nothing else in the
    record.  For a stored job in any other status, and for a token with no
    stored job, it returns [False] and leaves the whole state as it is. *)
Theorem cancel_job_iff_pending_or_running now tok self :
  (forall job, get_job tok self = Some job ->
     (fst (cancel_job now tok self) = true <->
        status job = "pending" \/ status job = "running") /\
     (status job = "pending" \/ status job = "running" ->
        get_job tok (snd (cancel_job now tok self)) =
          Some (set_steps
                  (steps job ++
                     [mk_step (Z.of_nat (length (steps job)) + 1) "Job cancelled by user" now])
                  (set_status "cancelled" job))) /\
     (~ (status job = "pending" \/ status job = "running") ->
        cancel_job now tok self = (false, self))) /\
  (get_job tok self = None -> cancel_job now tok self = (false, self)).
Proof.
  split; [|apply cancel_job_unknown].
  intros job Hget.
  destruct (str_in (status job) ["pending"; "running"]) eqn:Hst.
  - pose proof (proj1 (cancellable_spec _) Hst) as Hor.
    rewrite (cancel_job_live _ _ _ _ Hget Hst). simpl.
    split; [tauto|]. split; [|tauto]. intros _.
    unfold update_job_status. rewrite Hget, get_job_setex, decide_True by done.
    reflexivity.
  - assert (Hnor : ~ (status job = "pending" \/ status job = "running")).
    { rewrite <- cancellable_spec. by rewrite Hst. }
    rewrite (cancel_job_dead _ _ _ _ Hget Hst). simpl.
    split; [split; [done | tauto]|]. split; [tauto | done].
Qed.

(** A pending job is cancelled, and a second cancellation is refused. *)
Lemma cancel_job_iff_pending_or_running_witness :
  let '(tok, jm) := create_job "t0" "query" JNull init in
  let '(r1, jm1) := cancel_job "t1" tok jm in
  let '(r2, jm2) := cancel_job "t2" tok jm1 in
  r1 = true /\ r2 = false /\ jm2 = jm1 /\
  get_job tok jm1 =
    Some (mk_job 1 "query" "cancelled" "t0" JNull
            [mk_step 1 "Job cancelled by user" "t1"] JNull None).
Proof.
  pose (jm := snd (create_job "t0" "query" JNull init)).
  pose (job := mk_job 1 "query" "pending" "t0" JNull [] JNull None).
  assert (Hget : get_job 1 jm = Some job) by reflexivity.
  destruct (cancel_job_iff_pending_or_running "t1" 1 jm) as [Hstored _].
  destruct (Hstored job Hget) as (Hiff & Hlive & _).
  assert (Hst : status job = "pending" \/ status job = "running") by (left; reflexivity).
  pose proof (proj2 Hiff Hst) as Hr1. pose proof (Hlive Hst) as Hget1.
  change (create_job "t0" "query" JNull init) with (1, jm). cbv iota beta.
  destruct (cancel_job "t1" 1 jm) as [r1 jm1]. simpl in Hr1, Hget1.
  destruct (cancel_job_iff_pending_or_running "t2" 1 jm1) as [Hstored1 _].
  destruct (Hstored1 _ Hget1) as (_ & _ & Hdead).
  rewrite Hdead.
  - repeat split; [exact Hr1 | exact Hget1].
  - simpl. intros [H|H]; discriminate H.
Defined.

(** *** Tokens *)

(** C7. Whatever calls a manager receives after it starts, the tokens its
    creations return are 1, 2, 3, ... in that order: positive, strictly
    increasing, pairwise distinct, so none is handed out twice. *)
Theorem create_job_tokens_increasing (cs : list call) :
  let tokens := fst (run cs init) in
  tokens = seqZ 1 (creations cs) /\
  Forall (fun tok => 0 < tok) tokens /\
  StronglySorted Z.lt tokens /\
  NoDup tokens.
Proof.
  destruct (run_tokens cs init) as [Htok _]. simpl in Htok. cbv zeta.
  rewrite Htok. split; [done|]. split; [|split].
  - apply Forall_seqZ. lia.
  - unfold creations. apply seqZ_sorted.
  - apply NoDup_seqZ.
Qed.

Example three_creations :
  fst (run [CreateJob "t0" "discover" JNull;
            CancelJob "t1" 1;
            CreateJob "t2" "query" JNull;
            Expire 2;
            CreateJob "t3" "preview" JNull] init) = [1; 2; 3].
Proof. reflexivity. Qed.

(** *** Errors *)

Lemma truthy_str_Some s : s <> "" -> truthy_str (Some s) = true.
Proof.
  intros Hne. simpl. destruct (String.eqb_spec s ""); [done | reflexivity].
Qed.

(** An update that carries an error message stores it and fails the job,
    whatever status it was asked to set. *)
Lemma update_with_error now tok st stp d err self job :
  get_job tok self = Some job -> err <> "" ->
  exists job',
    get_job tok (update_job_status now tok st stp d (Some err) self) = Some job' /\
    status job' = "failed" /\ error job' = Some err.
Proof.
  intros Hget Herr.
  destruct (get_job_update now tok st stp d (Some err) self job Hget)
    as (job' & Hget' & Hst & _ & _ & Herror & _).
  rewrite (truthy_str_Some _ Herr) in Hst, Herror. eauto.
Qed.

End JobManagerFacts.

(** ** Endpoints *)

Section EndpointsFacts.

Import JobManager Endpoints.

(** An update without error message keeps the invariant when the task that
    makes it has not finished. *)
Lemma task_invariant_update now tok st stp d ph s :
  task_invariant s ->
  tasks s !! tok <> Some Finished ->
  task_invariant
    (mkSystem (update_job_status now tok st stp d None (job_manager s))
       (<[tok := ph]> (tasks s))).
Proof.
  intros Hinv Hph tok' job' Hget' Herr'. simpl in *.
  destruct (decide (tok' = tok)) as [->|Hne].
  - destruct (get_job tok (job_manager s)) as [job|] eqn:Hget.
    + destruct (get_job_update now tok st stp d None _ job Hget)
        as (job'' & Hget'' & _ & _ & _ & Herror & _).
      rewrite Hget'' in Hget'. inversion Hget'; subst job''. simpl in Herror.
      rewrite Herror in Herr'. by destruct (Hinv tok job Hget Herr') as [_ Hfin].
    + rewrite get_job_update_None in Hget' by done. congruence.
  - rewrite get_job_update_ne in Hget' by done. rewrite lookup_insert_ne by done.
    by apply Hinv.
Qed.

Lemma task_invariant_step e s s' :
  task_invariant s -> step e s = Some s' -> task_invariant s'.
Proof.
  intros Hinv Hstep. destruct e as [now ty ps|now tok msg|now tok msg d|now tok err|now tok|tok];
    simpl in Hstep.
  - inversion Hstep; subst s'; clear Hstep.
    intros tok' job' Hget' Herr'. simpl in *.
    pose proof (get_job_create now ty ps (job_manager s) tok') as Hc. simpl in Hc.
    rewrite Hc in Hget'. case_decide as Heq.
    + inversion Hget'; subst job'. done.
    + rewrite lookup_insert_ne by done. by apply Hinv.
  - case_decide as Hph; [|done]. inversion Hstep; subst s'.
    apply task_invariant_update; [done | congruence].
  - case_decide as Hph; [|done]. inversion Hstep; subst s'.
    apply task_invariant_update; [done | congruence].
  - case_decide as Hph; [|done]. inversion Hstep; subst s'; clear Hstep.
    intros tok' job' Hget' Herr'. simpl in *.
    destruct (decide (tok' = tok)) as [->|Hne].
    + rewrite lookup_insert_eq. split; [|done].
      destruct (get_job tok (job_manager s)) as [job|] eqn:Hget.
      * destruct (get_job_update now tok "failed" None JNull (Some err) _ job Hget)
          as (job'' & Hget'' & Hst & _).
        rewrite Hget'' in Hget'. inversion Hget'; subst job''.
        rewrite Hst. by destruct (truthy_str (Some err)).
      * rewrite get_job_update_None in Hget' by done. congruence.
    + rewrite get_job_update_ne in Hget' by done. rewrite lookup_insert_ne by done.
      by apply Hinv.
  - inversion Hstep; subst s'; clear Hstep.
    intros tok' job' Hget' Herr'. simpl in *.
    unfold cancel_job in Hget'.
    destruct (get_job tok (job_manager s)) as [job|] eqn:Hget; [|by apply Hinv].
    destruct (str_in (status job) ["pending"; "running"]) eqn:Hst; [|by apply Hinv].
    simpl in Hget'. destruct (decide (tok' = tok)) as [->|Hne].
    + destruct (get_job_update now tok "cancelled" (Some "Job cancelled by user")
                  JNull None _ job Hget) as (job'' & Hget'' & _ & _ & _ & Herror & _).
      rewrite Hget'' in Hget'. inversion Hget'; subst job''. simpl in Herror.
      rewrite Herror in Herr'. destruct (Hinv tok job Hget Herr') as [Hfailed _].
      rewrite Hfailed in Hst. discriminate Hst.
    + rewrite get_job_update_ne in Hget' by done. by apply Hinv.
  - inversion Hstep; subst s'; clear Hstep.
    intros tok' job' Hget' Herr'. simpl in *.
    rewrite get_job_expire in Hget'. case_decide; [done|]. by apply Hinv.
Qed.

Lemma task_invariant_steps es : forall s s',
  task_invariant s -> steps es s = Some s' -> task_invariant s'.
Proof.
  induction es as [|e es IH]; intros s s' Hinv Hsteps; simpl in Hsteps.
  - by inversion Hsteps; subst.
  - destruct (step e s) as [s1|] eqn:Hstep; [|done].
    eapply IH; [|done]. by eapply task_invariant_step.
Qed.

Lemma task_invariant_init : task_invariant init.
Proof. intros tok job Hget. discriminate Hget. Qed.

Lemma closed_jobs_idle_start r : closed_jobs_idle (Endpoints.start r).
Proof. intros tok job _ _. simpl. by rewrite lookup_empty. Qed.

(** An update of a stored job that leaves it neither completed nor failed
    keeps the invariant. *)
Lemma closed_jobs_idle_update now tok st stp d ph s :
  closed_jobs_idle s ->
  st <> "completed" -> st <> "failed" ->
  closed_jobs_idle
    (mkSystem (update_job_status now tok st stp d None (job_manager s))
       (<[tok := ph]> (tasks s))).
Proof.
  intros Hinv Hc Hf tok' job' Hget' Hclosed. simpl in *.
  destruct (decide (tok' = tok)) as [->|Hne].
  - exfalso. destruct (get_job tok (job_manager s)) as [job|] eqn:Hget.
    + destruct (get_job_update now tok st stp d None _ job Hget)
        as (job'' & Hget'' & Hst & _).
      rewrite Hget'' in Hget'. inversion Hget'; subst job''. simpl in Hst.
      rewrite Hst in Hclosed. by destruct Hclosed.
    + rewrite get_job_update_None in Hget' by done. congruence.
  - rewrite get_job_update_ne in Hget' by done. rewrite lookup_insert_ne by done.
    by apply (Hinv tok' job').
Qed.

(** The closing calls of a task keep the invariant. *)
Lemma closed_jobs_idle_close now tok st stp d err s :
  closed_jobs_idle s ->
  closed_jobs_idle
    (mkSystem (update_job_status now tok st stp d err (job_manager s))
       (<[tok := Finished]> (tasks s))).
Proof.
  intros Hinv tok' job' Hget' Hclosed. simpl in *.
  destruct (decide (tok' = tok)) as [->|Hne].
  - by rewrite lookup_insert_eq.
  - rewrite get_job_update_ne in Hget' by done. rewrite lookup_insert_ne by done.
    by apply (Hinv tok' job').
Qed.

Lemma closed_jobs_idle_step e s s' :
  closed_jobs_idle s -> step e s = Some s' -> closed_jobs_idle s'.
Proof.
  intros Hinv Hstep. destruct e as [now ty ps|now tok msg|now tok msg d|now tok err|now tok|tok];
    simpl in Hstep.
  - inversion Hstep; subst s'; clear Hstep.
    intros tok' job' Hget' Hclosed. simpl in *.
    pose proof (get_job_create now ty ps (job_manager s) tok') as Hc. simpl in Hc.
    rewrite Hc in Hget'. case_decide as Heq.
    + inversion Hget'; subst job'. simpl in Hclosed. by destruct Hclosed.
    + rewrite lookup_insert_ne by done. by apply (Hinv tok' job').
  - case_decide as Hph; [|done]. inversion Hstep; subst s'.
    by apply closed_jobs_idle_update.
  - case_decide as Hph; [|done]. inversion Hstep; subst s'.
    by apply closed_jobs_idle_close.
  - case_decide as Hph; [|done]. inversion Hstep; subst s'.
    by apply closed_jobs_idle_close.
  - inversion Hstep; subst s'; clear Hstep.
    intros tok' job' Hget' Hclosed. simpl in *.
    unfold cancel_job in Hget'.
    destruct (get_job tok (job_manager s)) as [job|] eqn:Hget; [|by apply (Hinv tok' job')].
    destruct (str_in (status job) ["pending"; "running"]) eqn:Hst;
      [|by apply (Hinv tok' job')].
    simpl in Hget'. destruct (decide (tok' = tok)) as [->|Hne].
    + exfalso.
      destruct (get_job_update now tok "cancelled" (Some "Job cancelled by user")
                  JNull None _ job Hget) as (job'' & Hget'' & Hst' & _).
      rewrite Hget'' in Hget'. inversion Hget'; subst job''. simpl in Hst'.
      rewrite Hst' in Hclosed. by destruct Hclosed.
    + rewrite get_job_update_ne in Hget' by done. by apply (Hinv tok' job').
  - inversion Hstep; subst s'; clear Hstep.
    intros tok' job' Hget' Hclosed. simpl in *.
    rewrite get_job_expire in Hget'. case_decide; [done|]. by apply (Hinv tok' job').
Qed.

Lemma closed_jobs_idle_steps es : forall s s',
  closed_jobs_idle s -> steps es s = Some s' -> closed_jobs_idle s'.
Proof.
  induction es as [|e es IH]; intros s s' Hinv Hsteps; simpl in Hsteps.
  - by inversion Hsteps; subst.
  - destruct (step e s) as [s1|] eqn:Hstep; [|done].
    eapply IH; [|done]. by eapply closed_jobs_idle_step.
Qed.

(** Under the invariant, an event leaves a completed or failed job as it
    is, or is its eviction, or is the creation that hands out its token:
    the token that follows the counter, so the job is one the process did
    not create. *)
Lemma closed_job_kept e s s' tok job :
  closed_jobs_idle s -> step e s = Some s' ->
  get_job tok (job_manager s) = Some job ->
  status job = "completed" \/ status job = "failed" ->
  get_job tok (job_manager s') = Some job \/
  (e = Evict tok /\ get_job tok (job_manager s') = None) \/
  (exists now ty ps,
     e = Submit now ty ps /\ tok = job_counter (job_manager s) + 1 /\
     get_job tok (job_manager s') = Some (mk_job tok ty "pending" now ps [] JNull None)).
Proof.
  intros Hinv Hstep Hget Hclosed.
  destruct (Hinv tok job Hget Hclosed) as [Hsched Hcomp].
  destruct e as [now ty ps|now tok' msg|now tok' msg d|now tok' err|now tok'|tok'];
    simpl in Hstep.
  - inversion Hstep; subst s'; clear Hstep. simpl.
    pose proof (get_job_create now ty ps (job_manager s) tok) as Hc. simpl in Hc.
    rewrite Hc. case_decide as Heq.
    + right. right. exists now, ty, ps. by subst tok.
    + by left.
  - case_decide as Hph; [|done]. inversion Hstep; subst s'. left. simpl.
    rewrite get_job_update_ne; [done | congruence].
  - case_decide as Hph; [|done]. inversion Hstep; subst s'. left. simpl.
    rewrite get_job_update_ne; [done | congruence].
  - case_decide as Hph; [|done]. inversion Hstep; subst s'. left. simpl.
    rewrite get_job_update_ne; [done|]. intros ->. destruct Hph; congruence.
  - inversion Hstep; subst s'; clear Hstep. left. simpl.
    destruct (decide (tok' = tok)) as [->|Hne].
    + rewrite (cancel_job_dead now tok _ job Hget); [done|].
      by destruct Hclosed as [-> | ->].
    + unfold cancel_job. destruct (get_job tok' (job_manager s)); [|done].
      destruct (str_in _ _); [|done]. simpl. by rewrite get_job_update_ne.
  - inversion Hstep; subst s'; clear Hstep. simpl. rewrite get_job_expire.
    case_decide as Heq; [right; left; by subst | by left].
Qed.

(** C1, as the code has it.  [cancel_job] changes nothing of a job whose
    status is terminal.  Over whatever the store held when the process
    started, an event of the endpoints and their tasks leaves a completed
    or failed job as it is, unless it is the eviction of the job or the
    creation that hands out its token; the latter token is the one after
    the counter, so it befalls only a job an earlier process has left, not
    one the process created.  [update_job_status] does not look at the
    status it overwrites: on a stored job in any status, so also on a
    cancelled one, the completing call of the work function leaves
    ["completed"] and its failing call, with a message, leaves
    ["failed"]. *)
Theorem terminal_job_kept_but_cancelled_overwritten :
  (forall now tok self job,
     get_job tok self = Some job -> terminal (status job) = true ->
     cancel_job now tok self = (false, self)) /\
  (forall r es s e s' tok job,
     steps es (Endpoints.start r) = Some s -> step e s = Some s' ->
     get_job tok (job_manager s) = Some job ->
     status job = "completed" \/ status job = "failed" ->
     get_job tok (job_manager s') = Some job \/
     (e = Evict tok /\ get_job tok (job_manager s') = None) \/
     (exists now ty ps,
        e = Submit now ty ps /\ tok = job_counter (job_manager s) + 1 /\
        get_job tok (job_manager s') =
          Some (mk_job tok ty "pending" now ps [] JNull None))) /\
  (forall now tok self job,
     get_job tok self = Some job ->
     (forall msg result,
        status_of tok (update_job_status now tok "completed" (Some msg) result None self)
        = Some "completed") /\
     (forall err, err <> "" ->
        status_of tok (update_job_status now tok "failed" None JNull (Some err) self)
        = Some "failed")).
Proof.
  split; [|split].
  - intros now tok self job Hget Hterm.
    eapply cancel_job_dead; [done|]. by apply terminal_not_cancellable.
  - intros r es s e s' tok job Hsteps Hstep Hget Hclosed.
    eapply closed_job_kept; try done.
    by eapply closed_jobs_idle_steps; [apply closed_jobs_idle_start|].
  - intros now tok self job Hget. split.
    + intros msg result.
      destruct (get_job_update now tok "completed" (Some msg) result None self job Hget)
        as (job' & Hget' & Hst & _).
      unfold status_of. rewrite Hget'. simpl. by rewrite Hst.
    + intros err Herr.
      destruct (get_job_update now tok "failed" None JNull (Some err) self job Hget)
        as (job' & Hget' & Hst & _).
      unfold status_of. rewrite Hget'. simpl. rewrite Hst.
      by destruct (truthy_str (Some err)).
Qed.

(** The cancelled job of that run: a further cancellation is refused and
    changes nothing, the task's closing calls overwrite the status; and a
    job the process created and completed is the same after a
    cancellation. *)
Lemma terminal_job_kept_but_cancelled_overwritten_witness :
  let jm := snd (run [CreateJob "t0" "query" JNull;
                      UpdateJobStatus "t1" 1 "running" (Some "Executing query") JNull None;
                      CancelJob "t2" 1] JobManager.init) in
  let es := [Submit "t0" "query" JNull;
             Running "t1" 1 "Executing query";
             Completed "t2" 1 "Query completed: 1 rows" (JDict [("format", JStr "json")])] in
  status_of 1 jm = Some "cancelled" /\
  cancel_job "t3" 1 jm = (false, jm) /\
  status_of 1 (update_job_status "t3" 1 "completed" (Some "Query completed: 1 rows")
                 (JDict [("format", JStr "json")]) None jm) = Some "completed" /\
  status_of 1 (update_job_status "t3" 1 "failed" None JNull (Some "disk full") jm)
  = Some "failed" /\
  (steps (es ++ [Cancel "t3" 1]) (Endpoints.start ∅) ≫= fun s => get_job 1 (job_manager s)) =
  (steps es (Endpoints.start ∅) ≫= fun s => get_job 1 (job_manager s)).
Proof.
  intros jm es.
  pose (job := mk_job 1 "query" "cancelled" "t0" JNull
                 [mk_step 1 "Executing query" "t1"; mk_step 2 "Job cancelled by user" "t2"]
                 JNull None).
  assert (Hget : get_job 1 jm = Some job) by reflexivity.
  destruct terminal_job_kept_but_cancelled_overwritten as (Hcancel & Hkept & Hupdate).
  destruct (Hupdate "t3" 1 jm job Hget) as [Hcompleted Hfailed].
  split; [reflexivity|]. split; [by apply (Hcancel "t3" 1 jm job)|].
  split; [apply Hcompleted|]. split; [apply Hfailed; discriminate|].
  destruct (steps es (Endpoints.start ∅)) as [s|] eqn:Hs; [|discriminate Hs].
  destruct (step (Cancel "t3" 1) s) as [s'|] eqn:Hs'; [|discriminate Hs'].
  assert (Hrun : steps (es ++ [Cancel "t3" 1]) (Endpoints.start ∅) = Some s').
  { revert Hs Hs'. vm_compute. intros [= <-] [= <-]. reflexivity. }
  rewrite Hrun. simpl.
  destruct (get_job 1 (job_manager s)) as [job1|] eqn:Hget1.
  - destruct (Hkept ∅ es s (Cancel "t3" 1) s' 1 job1 Hs Hs' Hget1)
      as [H|[[H _]|(now & ty & ps & H & _)]];
      [| exact H | discriminate H | discriminate H].
    revert Hs Hget1. vm_compute. intros [= <-] [= <-]. by left.
  - revert Hs Hget1. vm_compute. intros [= <-]. discriminate.
Defined.

(** A completed job that an earlier process has left under the token 1 is
    replaced by the first job the new process creates. *)
Example leftover_job_replaced :
  let left_ := mk_job 1 "query" "completed" "t0" JNull
                 [mk_step 1 "Executing query" "t1"] JNull None in
  let r : gmap string (Z * job_data) := {[ job_key 1 := (3600, left_) ]} in
  get_job 1 (job_manager (Endpoints.start r)) = Some left_ /\
  (steps [Submit "t5" "preview" JNull] (Endpoints.start r)
     ≫= fun s => get_job 1 (job_manager s)) =
  Some (mk_job 1 "preview" "pending" "t5" JNull [] JNull None).
Proof. split; vm_compute; reflexivity. Qed.

(** C1, as the specification states it, fails: a query job is cancelled
    while its task computes, and the completing call of the task then
    turns the cancelled job into a completed one. *)
Lemma cancelled_job_becomes_completed :
  let es := [Submit "t0" "query" JNull;
             Running "t1" 1 "Executing query";
             Cancel "t2" 1] in
  let done_ := Completed "t3" 1 "Query completed: 1 rows" (JDict [("format", JStr "json")]) in
  (steps es init ≫= fun s => status_of 1 (job_manager s)) = Some "cancelled" /\
  (steps (es ++ [done_]) init ≫= fun s => status_of 1 (job_manager s)) = Some "completed".
Proof. split; vm_compute; reflexivity. Qed.

(** C10, as the code has it.  An update that carries a non-empty error
    message leaves the job ["failed"], with that message, whatever status
    the call names.  Every record stored through the endpoints and their
    background tasks satisfies: an error is present only if the status is
    ["failed"]. *)
Theorem error_update_fails_job :
  (forall now tok st stp d err self job,
     get_job tok self = Some job -> err <> "" ->
     exists job',
       get_job tok (update_job_status now tok st stp d (Some err) self) = Some job' /\
       status job' = "failed" /\ JobManager.error job' = Some err) /\
  (forall es s, steps es Endpoints.init = Some s -> error_implies_failed (job_manager s)).
Proof.
  split; [apply update_with_error|].
  intros es s Hsteps tok job Hget Herr.
  pose proof (task_invariant_steps es _ _ task_invariant_init Hsteps) as Hinv.
  by destruct (Hinv tok job Hget Herr).
Qed.

(** A task that is asked for a completed status but carries an error fails
    its job; and the job of a failed discovery is stored as failed. *)
Lemma error_update_fails_job_witness :
  let jm := snd (create_job "t0" "discover" JNull JobManager.init) in
  (exists job',
     get_job 1 (update_job_status "t1" 1 "completed" None JNull (Some "boom") jm)
     = Some job' /\
     status job' = "failed" /\ JobManager.error job' = Some "boom") /\
  error_implies_failed
    (snd (run [CreateJob "t0" "discover" JNull;
               UpdateJobStatus "t1" 1 "running" (Some "Starting file discovery") JNull None;
               UpdateJobStatus "t2" 1 "failed" None JNull (Some "Path not found: /x")]
            JobManager.init)).
Proof.
  destruct error_update_fails_job as [Hupdate Hinv]. split.
  - eapply Hupdate; [reflexivity | discriminate].
  - apply (Hinv [Submit "t0" "discover" JNull;
                 Running "t1" 1 "Starting file discovery";
                 Failed "t2" 1 "Path not found: /x"]
             (mkSystem _ (<[1 := Finished]> (<[1 := Computing]> (<[1 := Scheduled]> ∅))))).
    reflexivity.
Defined.

(** C10, as the specification states it, fails on the manager alone: a
    status update that follows a failing one keeps the error and replaces
    the status. *)
Lemma error_kept_by_later_update :
  let jm := snd (run [CreateJob "t0" "query" JNull;
                      UpdateJobStatus "t1" 1 "failed" None JNull (Some "boom");
                      UpdateJobStatus "t2" 1 "running" (Some "Executing query") JNull None]
                   JobManager.init) in
  get_job 1 jm =
    Some (mk_job 1 "query" "running" "t0" JNull [mk_step 1 "Executing query" "t2"]
            JNull (Some "boom")) /\
  ~ error_implies_failed jm.
Proof.
  assert (Hget : get_job 1 (snd (run [CreateJob "t0" "query" JNull;
                      UpdateJobStatus "t1" 1 "failed" None JNull (Some "boom");
                      UpdateJobStatus "t2" 1 "running" (Some "Executing query") JNull None]
                   JobManager.init)) =
    Some (mk_job 1 "query" "running" "t0" JNull [mk_step 1 "Executing query" "t2"]
            JNull (Some "boom"))) by reflexivity.
  split; [exact Hget|].
  intros Hinv. specialize (Hinv 1 _ Hget). simpl in Hinv.
  assert (H : "running" = "failed") by (apply Hinv; discriminate).
  discriminate H.
Qed.

End EndpointsFacts.

(** ** Data processor *)

Section DataProcessorFacts.

Import DataProcessor Sample.

Example suffix_examples :
  Path_suffix (Path_of "data/T.CSV") = ".CSV" /\
  Path_suffix (Path_of "data/archive.tar.gz") = ".gz" /\
  Path_suffix (Path_of "data/.csv") = "" /\
  Path_suffix (Path_of "data/t.") = "" /\
  lower ".CSV" = ".csv" /\
  allowed_extensions_list default_settings = [".csv"; ".parquet"; ".jsonl"].
Proof. repeat split; reflexivity. Qed.

Example discover_fs1 :
  discover_files default_settings fs1 "ds" "data" true None =
  inr [mk_info "data/t.jsonl" "t.jsonl" 64 0 ".jsonl"].
Proof. reflexivity. Qed.

Example sum_ignores_null :
  query default_settings fs1 read4 read4 read4 "ds" plan_sum "json" =
  inr (Json [[("a", pl.Int 1); ("sum_b", pl.Int 40)]]
         [("a", "Int64"); ("sum_b", "Int64")] 1 2).
Proof. reflexivity. Qed.

(** *** The stages of [execute_query] *)

Section stages.

Variable settings : Settings.
Variable fs : node.
Variables read_csv read_parquet read_ndjson :
  string -> option Z -> result polars_error pl.DataFrame.

Let execute_query := execute_query settings fs read_csv read_parquet read_ndjson.
Let load := _load_file read_csv read_parquet read_ndjson.

(** Once the data set resolves to a first file and that file loads, the
    query is the four stages in their order, then the encoding. *)
Lemma execute_query_loaded ds plan fmt f fl df :
  discover_files settings fs ds (dataset plan) true None = inr (f :: fl) ->
  load (path f) None = inr df ->
  execute_query ds plan fmt =
    (df1 ← apply_filters plan df;
     df2 ← apply_select plan df1;
     df3 ← apply_groupby_aggs plan df2;
     ret (encode fmt (apply_limit plan df3))).
Proof.
  intros Hfiles Hload. unfold execute_query, DataProcessor.execute_query.
  rewrite Hfiles. simpl. unfold load in Hload. by rewrite Hload.
Qed.

(** Two plans with the same data set that agree on every stage give the
    same result. *)
Lemma execute_query_ext ds plan plan' fmt :
  dataset plan = dataset plan' ->
  (forall df, apply_filters plan df = apply_filters plan' df) ->
  (forall df, apply_select plan df = apply_select plan' df) ->
  (forall df, apply_groupby_aggs plan df = apply_groupby_aggs plan' df) ->
  (forall df, apply_limit plan df = apply_limit plan' df) ->
  execute_query ds plan fmt = execute_query ds plan' fmt.
Proof.
  intros Hds Hf Hs Hg Hl. unfold execute_query, DataProcessor.execute_query.
  rewrite Hds. destruct (discover_files _ _ _ _ _ _) as [e|[|f fl]]; try reflexivity.
  simpl. destruct (_load_file _ _ _ _ _) as [e|df]; [reflexivity|]. simpl.
  rewrite Hf. destruct (apply_filters plan' df) as [e|df1]; [reflexivity|]. simpl.
  rewrite Hs. destruct (apply_select plan' df1) as [e|df2]; [reflexivity|]. simpl.
  rewrite Hg. destruct (apply_groupby_aggs plan' df2) as [e|df3]; [reflexivity|]. simpl.
  by rewrite Hl.
Qed.


(** *** Grouping without aggregates *)

Lemma apply_groupby_aggs_skip plan df :
  truthy_list (groupby plan) = false \/ truthy_list (aggs plan) = false ->
  apply_groupby_aggs plan df = inr df.
Proof.
  intros H. unfold apply_groupby_aggs.
  destruct H as [-> | ->]; [reflexivity|]. by rewrite andb_false_r.
Qed.

(** C9. When [groupby] is given and [aggs] is not, or [aggs] is given and
    [groupby] is not, the grouping stage returns the table it receives,
    without error, and the query gives what it gives with neither. *)
Theorem groupby_or_aggs_alone_is_identity plan :
  (groupby plan <> None /\ aggs plan = None) \/
  (aggs plan <> None /\ groupby plan = None) ->
  (forall df, apply_groupby_aggs plan df = inr df) /\
  (forall ds fmt, execute_query ds plan fmt = execute_query ds (without_grouping plan) fmt).
Proof.
  intros H.
  assert (Hskip : forall df, apply_groupby_aggs plan df = inr df).
  { intros df. apply apply_groupby_aggs_skip.
    destruct H as [[_ ->] | [_ ->]]; [by right | by left]. }
  split; [done|]. intros ds fmt. apply execute_query_ext; done.
Qed.

(** *** Operators *)

Lemma apply_filter_list_app l1 l2 df :
  apply_filter_list (l1 ++ l2) df = (df' ← apply_filter_list l1 df; apply_filter_list l2 df').
Proof.
  revert df. induction l1 as [|c l1 IH]; intros df; [reflexivity|].
  simpl. destruct (if String.eqb (filter_op c) ">=" then _ else _) as [e|df1];
    [reflexivity|]. simpl. apply IH.
Qed.

Lemma apply_filters_list plan df :
  apply_filters plan df = apply_filter_list (default [] (filters plan)) df.
Proof. unfold apply_filters. by destruct (filters plan) as [[|c l]|]. Qed.

Lemma apply_filter_list_unsupported c l df :
  supported_op (filter_op c) = false ->
  apply_filter_list (c :: l) df = apply_filter_list l df.
Proof.
  unfold supported_op. simpl. intros H.
  destruct (String.eqb (filter_op c) ">="); [done|].
  destruct (String.eqb (filter_op c) "<="); [done|].
  by destruct (String.eqb (filter_op c) "==").
Qed.

(** C5, as the code has it.  Among filters that carry [col], [op] and
    [val], one whose operator is none of [>=], [<=], [==] raises nothing
    and is skipped: the filter stage gives, table or error, what it gives
    for the plan without that filter.  So does the whole query when the
    plan does not group; in every case the two queries raise the same
    exception or both return, with the same row and column counts.  (The
    engine fixes no order for the rows of a grouped table.) *)
Theorem unsupported_operator_is_skipped ds fmt plan l1 c l2 :
  filters plan = Some (l1 ++ c :: l2) ->
  supported_op (filter_op c) = false ->
  let plan' := with_filters (Some (l1 ++ l2)) plan in
  (forall df, apply_filters plan df = apply_filters plan' df) /\
  (truthy_list (groupby plan) && truthy_list (aggs plan) = false ->
   execute_query ds plan fmt = execute_query ds plan' fmt) /\
  match execute_query ds plan fmt, execute_query ds plan' fmt with
  | inr r, inr r' => metrics r = metrics r'
  | inl e, inl e' => e = e'
  | _, _ => False
  end.
Proof.
  intros Hfl Hop plan'.
  assert (Hstage : forall df, apply_filters plan df = apply_filters plan' df).
  { intros df. rewrite !apply_filters_list, Hfl. simpl.
    rewrite !apply_filter_list_app.
    destruct (apply_filter_list l1 df) as [e|df1]; [reflexivity|]. simpl.
    by apply apply_filter_list_unsupported. }
  assert (Hquery : execute_query ds plan fmt = execute_query ds plan' fmt).
  { by apply execute_query_ext. }
  split; [exact Hstage|]. split; [by intros _|].
  rewrite Hquery. by destruct (execute_query ds plan' fmt).
Qed.

(** *** Limit *)

Lemma limit_height df n : 0 <= n -> pl.height (pl.limit df n) <= n.
Proof.
  intros Hn. unfold pl.height, pl.limit. simpl.
  destruct (Z.leb_spec 0 n); [|lia].
  pose proof (firstn_le_length (Z.to_nat n) (pl.rows df)). lia.
Qed.

Lemma encode_height fmt df :
  result_height (encode fmt df) = pl.height df /\
  fst (metrics (encode fmt df)) = pl.height df.
Proof.
  unfold encode. destruct (String.eqb fmt "arrow"); simpl; [done|].
  split; [|done]. unfold pl.to_dicts, pl.height. by rewrite length_map.
Qed.

(** A result is the encoding of a limited table. *)
Lemma execute_query_inr ds plan fmt r :
  execute_query ds plan fmt = inr r ->
  exists df, r = encode fmt (apply_limit plan df).
Proof.
  unfold execute_query, DataProcessor.execute_query.
  destruct (discover_files _ _ _ _ _ _) as [e|[|f fl]]; try done.
  simpl. destruct (_load_file _ _ _ _ _) as [e|df]; [done|]. simpl.
  destruct (apply_filters plan df) as [e|df1]; [done|]. simpl.
  destruct (apply_select plan df1) as [e|df2]; [done|]. simpl.
  destruct (apply_groupby_aggs plan df2) as [e|df3]; [done|]. simpl.
  intros [= <-]. by exists df3.
Qed.

(** A positive limit bounds the rows of the result, and the row count it
    reports. *)
Lemma execute_query_limit_positive ds plan fmt n r :
  limit plan = Some n -> 0 < n ->
  execute_query ds plan fmt = inr r ->
  result_height r <= n /\ fst (metrics r) <= n.
Proof.
  intros Hlim Hn Hr. destruct (execute_query_inr _ _ _ _ Hr) as [df ->].
  destruct (encode_height fmt (apply_limit plan df)) as [-> ->].
  unfold apply_limit. rewrite Hlim. simpl.
  destruct (Z.eqb_spec n 0); [lia|]. simpl.
  pose proof (limit_height df n). lia.
Qed.

(** A request that names no limit is capped at 50000 rows. *)
Lemma query_default_cap ds dataset filters select groupby aggs grain order fmt r :
  query settings fs read_csv read_parquet read_ndjson ds
    (QueryPlan_new dataset filters select groupby aggs grain order None) fmt = inr r ->
  result_height r <= 50000 /\ fst (metrics r) <= 50000.
Proof.
  intros Hr. eapply execute_query_limit_positive; [| |exact Hr]; [reflexivity | lia].
Qed.

(** *** Loading *)

(** C8. [_load_file] raises its "Unsupported file format" error exactly
    when the lower-cased suffix of the path is none of [.csv], [.parquet],
    [.jsonl]; for each of the three it is the call of the matching reader
    on the path and the row cap. *)
Theorem load_file_unsupported_format file_path n_rows :
  let suffix := Path_suffix (Path_of file_path) in
  let supported := In (lower suffix) [".csv"; ".parquet"; ".jsonl"] in
  ((exists msg, load file_path n_rows = inl (ValueError msg)) <-> ~ supported) /\
  (~ supported ->
     load file_path n_rows = inl (ValueError ("Unsupported file format: " +:+ suffix))) /\
  (lower suffix = ".csv" -> load file_path n_rows = lift (read_csv file_path n_rows)) /\
  (lower suffix = ".parquet" ->
     load file_path n_rows = lift (read_parquet file_path n_rows)) /\
  (lower suffix = ".jsonl" -> load file_path n_rows = lift (read_ndjson file_path n_rows)).
Proof.
  intros suffix supported. unfold supported, load, _load_file. fold suffix. simpl.
  assert (Hlift : forall (m : result polars_error pl.DataFrame) msg,
            lift m <> inl (ValueError msg)) by (by intros [e|df] msg).
  destruct (String.eqb_spec (lower suffix) ".csv") as [Hcsv|Hcsv].
  { rewrite Hcsv. repeat split; try done.
    - intros [msg H]. by apply Hlift in H.
    - intros H. exfalso. apply H. by left.
    - intros H. exfalso. apply H. by left. }
  destruct (String.eqb_spec (lower suffix) ".parquet") as [Hpq|Hpq].
  { rewrite Hpq. repeat split; try done.
    - intros [msg H]. by apply Hlift in H.
    - intros H. exfalso. apply H. right. by left.
    - intros H. exfalso. apply H. right. by left. }
  destruct (String.eqb_spec (lower suffix) ".jsonl") as [Hjs|Hjs].
  { rewrite Hjs. repeat split; try done.
    - intros [msg H]. by apply Hlift in H.
    - intros H. exfalso. apply H. right. right. by left.
    - intros H. exfalso. apply H. right. right. by left. }
  repeat split; try done.
  - intros _ [H|[H|[H|[]]]]; congruence.
  - intros _. by eexists.
Qed.

(** *** Discovery *)

(** The loop under a positive cap [m], entered with fewer than [m] files:
    it reads a prefix of the entries, keeps the eligible ones of that
    prefix, and ends either on the entry that brings the count to [m] or
    with every entry read. *)
Lemma discover_loop_spec m entries : forall acc,
  0 < m -> Z.of_nat (length acc) < m ->
  exists files consumed rest,
    discover_loop settings fs (Some m) entries acc = (files, rest) /\
    entries = consumed ++ rest /\
    files = acc ++ map (_get_file_info fs) (List.filter (eligible settings fs) consumed) /\
    Z.of_nat (length files) <= m /\
    ((Z.of_nat (length files) = m /\
      exists c p, consumed = c ++ [p] /\ eligible settings fs p = true) \/
     (Z.of_nat (length files) < m /\ rest = [])).
Proof.
  induction entries as [|p entries IH]; intros acc Hm Hacc.
  - exists acc, [], []. simpl. rewrite app_nil_r. repeat split; try done; [lia|].
    right. done.
  - simpl. fold (eligible settings fs p).
    destruct (eligible settings fs p) eqn:Hel.
    + assert (Htr : (m =? 0) = false) by lia. rewrite Htr. simpl.
      destruct (Z.leb_spec m (Z.of_nat (length (acc ++ [_get_file_info fs p]))))
        as [Hfull|Hroom].
      * exists (acc ++ [_get_file_info fs p]), [p], entries. simpl. rewrite Hel. simpl.
        rewrite length_app in *. simpl in *.
        repeat split; try done; [lia|]. left. split; [lia|]. by exists [], p.
      * destruct (IH (acc ++ [_get_file_info fs p]) Hm Hroom)
          as (files & consumed & rest & Hloop & Hent & Hfiles & Hle & Hend).
        exists files, (p :: consumed), rest. simpl. rewrite Hel. simpl.
        repeat split; try done.
        -- by rewrite Hent.
        -- by rewrite Hfiles, <- app_assoc.
        -- destruct Hend as [[Heq (c & q & -> & Hq)]|Hend]; [|by right].
           left. split; [done|]. by exists (p :: c), q.
    + destruct (IH acc Hm Hacc)
        as (files & consumed & rest & Hloop & Hent & Hfiles & Hle & Hend).
      exists files, (p :: consumed), rest. simpl. rewrite Hel.
      repeat split; try done.
      * by rewrite Hent.
      * destruct Hend as [[Heq (c & q & -> & Hq)]|Hend]; [|by right].
        left. split; [done|]. by exists (p :: c), q.
Qed.

(** C6, as the code has it.  Over a directory, with a positive
    [max_files], [discover_files] returns at most [max_files] descriptors:
    those of the eligible entries among the ones it has read.  It reads
    the entries in glob order and stops on the entry that completes the
    count, or reads them all when fewer are eligible; so it returns
    exactly [max_files] descriptors when that many entries are eligible. *)
Theorem discover_files_stops_at_max_files ds uri (recurse : bool) m :
  0 < m ->
  exists_ fs (Path_of uri) = true ->
  is_file fs (Path_of uri) = false ->
  let entries := glob fs (Path_of uri) (if recurse then "**/*" else "*") in
  exists files consumed rest,
    discover_files settings fs ds uri recurse (Some m) = inr files /\
    discover_loop settings fs (Some m) entries [] = (files, rest) /\
    entries = consumed ++ rest /\
    files = map (_get_file_info fs) (List.filter (eligible settings fs) consumed) /\
    Z.of_nat (length files) <= m /\
    ((Z.of_nat (length files) = m /\
      exists c p, consumed = c ++ [p] /\ eligible settings fs p = true) \/
     (Z.of_nat (length files) < m /\ rest = [])) /\
    (m <= Z.of_nat (length (List.filter (eligible settings fs) entries)) ->
     Z.of_nat (length files) = m).
Proof.
  intros Hm Hex Hdir entries.
  destruct (discover_loop_spec m entries [] Hm)
    as (files & consumed & rest & Hloop & Hent & Hfiles & Hle & Hend); [simpl; lia|].
  exists files, consumed, rest. simpl in Hfiles.
  repeat split; try done.
  - unfold discover_files. rewrite Hex, Hdir. simpl. fold entries. by rewrite Hloop.
  - intros Hmany. destruct Hend as [[Heq _]|[Hlt ->]]; [done|].
    rewrite app_nil_r in Hent. subst consumed.
    rewrite Hfiles, length_map in Hlt. lia.
Qed.

End stages.

(** C8: the sample reader on three paths. *)
Lemma load_file_unsupported_format_witness :
  _load_file read1 read1 read1 "data/t.JSONL" (Some 2) = lift (read1 "data/t.JSONL" (Some 2)) /\
  _load_file read1 read1 read1 "data/t.xlsx" None =
    inl (ValueError "Unsupported file format: .xlsx") /\
  ~ (exists msg, _load_file read1 read1 read1 "data/t.csv" None = inl (ValueError msg)).
Proof.
  destruct (load_file_unsupported_format read1 read1 read1 "data/t.JSONL" (Some 2))
    as (_ & _ & _ & _ & Hjsonl).
  destruct (load_file_unsupported_format read1 read1 read1 "data/t.xlsx" None)
    as (_ & Hxlsx & _).
  destruct (load_file_unsupported_format read1 read1 read1 "data/t.csv" None)
    as (Hiff & _).
  split; [apply Hjsonl; reflexivity|]. split.
  - apply Hxlsx. simpl. intros [H|[H|[H|[]]]]; discriminate H.
  - intros H. apply Hiff in H. apply H. left. reflexivity.
Defined.

(** C6: two of the five eligible files of the sample directory. *)
Lemma discover_files_stops_at_max_files_witness :
  exists files,
    discover_files default_settings fs5 "ds" "in" true (Some 2) = inr files /\
    length files = 2%nat.
Proof.
  destruct (discover_files_stops_at_max_files default_settings fs5 "ds" "in" true 2)
    as (files & consumed & rest & Hfiles & _ & _ & _ & _ & _ & Hexact);
    [lia | reflexivity | reflexivity |].
  exists files. split; [exact Hfiles|].
  assert (H : Z.of_nat (length files) = 2) by (apply Hexact; vm_compute; discriminate).
  lia.
Defined.

Example discover_two_of_five :
  discover_loop default_settings fs5 (Some 2) (glob fs5 (Path_of "in") "**/*") [] =
  ([mk_info "in/a.csv" "a.csv" 10 1 ".csv"; mk_info "in/b.CSV" "b.CSV" 20 2 ".CSV"],
   [["in"; "sub"]; ["in"; "c.jsonl"]; ["in"; "d.parquet"]; ["in"; "sub"; "e.csv"]]) /\
  length (List.filter (eligible default_settings fs5) (glob fs5 (Path_of "in") "**/*")) = 5%nat.
Proof. split; reflexivity. Qed.

(** C6, as the specification states it, fails: [max_files = 0] is no cap
    at all, and under [max_files = -1] the first eligible file is
    returned. *)
Lemma max_files_zero_or_negative :
  (exists files,
     discover_files default_settings fs5 "ds" "in" true (Some 0) = inr files /\
     length files = 5%nat) /\
  discover_files default_settings fs5 "ds" "in" true (Some (-1)) =
    inr [mk_info "in/a.csv" "a.csv" 10 1 ".csv"].
Proof. split; [eexists; split; reflexivity | reflexivity]. Qed.


(** C9: a plan that groups by [a] and names no aggregate returns the three
    rows of the sample. *)
Lemma groupby_or_aggs_alone_is_identity_witness :
  let plan :=
    QueryPlan_dict (QueryPlan_new "data" None None (Some ["a"]) None None None None) in
  apply_groupby_aggs plan table3 = inr table3 /\
  execute_query default_settings fs1 read1 read1 read1 "ds" plan "arrow" =
  inr (Arrow table3 3 2).
Proof.
  intros plan.
  assert (H : (groupby plan <> None /\ aggs plan = None) \/
              (aggs plan <> None /\ groupby plan = None)).
  { left. split; [discriminate | reflexivity]. }
  destruct (groupby_or_aggs_alone_is_identity default_settings fs1 read1 read1 read1 plan H)
    as [Hstage Hquery].
  split; [apply Hstage|]. rewrite Hquery. reflexivity.
Defined.

(** C5, as the specification states it, fails: the filter [a != 1] raises
    nothing and the query returns the three rows of the sample. *)
Lemma unsupported_operator_returns_rows :
  query default_settings fs1 read1 read1 read1 "ds" plan_ne "json" =
  inr (Json [[("a", pl.Int 1); ("b", pl.Int 10)];
             [("a", pl.Int 2); ("b", pl.Int 20)];
             [("a", pl.Int 1); ("b", pl.Int 30)]]
         [("a", "Int64"); ("b", "Int64")] 3 2).
Proof. reflexivity. Qed.

(** C5: the plan with [a != 1] between two supported filters, which does
    not group, is the plan with those two alone. *)
Lemma unsupported_operator_is_skipped_witness :
  let ge := mkFilter "b" ">=" (JInt 20) in
  let ne := mkFilter "a" "!=" (JInt 1) in
  let le := mkFilter "b" "<=" (JInt 30) in
  let plan fl := mkPlan "data" (Some fl) None None None None None (Some 50000) in
  apply_filters (plan [ge; ne; le]) table3 = apply_filters (plan [ge; le]) table3 /\
  execute_query default_settings fs1 read1 read1 read1 "ds" (plan [ge; ne; le]) "arrow" =
  execute_query default_settings fs1 read1 read1 read1 "ds" (plan [ge; le]) "arrow".
Proof.
  intros ge ne le plan.
  destruct (unsupported_operator_is_skipped default_settings fs1 read1 read1 read1
              "ds" "arrow" (plan [ge; ne; le]) [ge] ne [le] eq_refl eq_refl)
    as (Hstage & Hquery & _).
  split; [apply Hstage | apply Hquery; reflexivity].
Defined.

(** C3 at the limit 0: the query returns every row of the sample, where
    the specification asks for none. *)
Theorem limit_zero_returns_all_rows :
  query default_settings fs1 read1 read1 read1 "ds" plan_limit0 "json" =
  inr (Json [[("a", pl.Int 1); ("b", pl.Int 10)];
             [("a", pl.Int 2); ("b", pl.Int 20)];
             [("a", pl.Int 1); ("b", pl.Int 30)]]
         [("a", "Int64"); ("b", "Int64")] 3 2).
Proof. reflexivity. Qed.

Example limit_two :
  query default_settings fs1 read1 read1 read1 "ds"
    (QueryPlan_new "data" None None None None None None (Some 2)) "arrow" =
  inr (Arrow (pl.mkDF [("a", pl.Int64); ("b", pl.Int64)]
                [[pl.Int 1; pl.Int 10]; [pl.Int 2; pl.Int 20]]) 2 2).
Proof. reflexivity. Qed.

End DataProcessorFacts.

(** ** The store of the job manager *)

Section StoreFacts.

Import JobManager.

#[local] Existing Instance job_key_inj.

Lemma get_job_lookup tok self job :
  get_job tok self = Some job <->
  exists ttl, redis_client self !! job_key tok = Some (ttl, job).
Proof.
  unfold get_job, redis_get. destruct (redis_client self !! job_key tok) as [[ttl j]|];
    simpl; split.
  - intros [= <-]. by exists ttl.
  - by intros (ttl' & [= _ <-]).
  - done.
  - by intros (ttl' & ?).
Qed.

(** The store after an update of a stored job. *)
Lemma redis_update now tok st stp d e self job :
  get_job tok self = Some job ->
  exists job',
    update_job_status now tok st stp d e self =
      mk (<[job_key tok := (3600, job')]> (redis_client self)) (job_counter self) /\
    JobManager.token job' = JobManager.token job /\
    (steps job' = steps job \/
     exists msg, steps job' =
       steps job ++ [mk_step (Z.of_nat (length (steps job)) + 1) msg now]).
Proof.
  intros Hget. unfold update_job_status. rewrite Hget. eexists. split; [reflexivity|].
  destruct (truthy_str stp), (truthy d), (truthy_str e); simpl; split; eauto.
Qed.

Lemma steps_numbered_snoc (l : list step_data) msg now :
  map step l = seqZ 1 (Z.of_nat (length l)) ->
  map step (l ++ [mk_step (Z.of_nat (length l) + 1) msg now]) =
  seqZ 1 (Z.of_nat (length (l ++ [mk_step (Z.of_nat (length l) + 1) msg now]))).
Proof.
  intros Hl. rewrite map_app, length_app, Hl. simpl.
  replace (length l + 1)%nat with (S (length l)) by lia.
  rewrite seqZ_S. f_equal. f_equal. lia.
Qed.

Lemma well_stored_update now tok st stp d e self :
  well_stored self -> well_stored (update_job_status now tok st stp d e self).
Proof.
  intros [Hpos Hws]. destruct (get_job tok self) as [job|] eqn:Hget;
    [|by rewrite get_job_update_None].
  destruct (redis_update now tok st stp d e self job Hget) as (job' & -> & Htok & Hsteps).
  apply get_job_lookup in Hget as [ttl0 Hlook].
  destruct (Hws _ _ _ Hlook) as (Hkey & Hrange & _ & Hnum).
  split; [done|]. intros key ttl j. simpl. rewrite lookup_insert. case_decide as Hk.
  - intros Heq. inversion Heq; subst ttl j key. rewrite Htok.
    split; [done|]. split; [done|]. split; [done|].
    destruct Hsteps as [Hs | [msg Hs]]; rewrite Hs; [done | by apply steps_numbered_snoc].
  - apply Hws.
Qed.

Lemma well_stored_exec c self : well_stored self -> well_stored (snd (exec c self)).
Proof.
  intros Hws. destruct c as [now ty ps|now tok st stp d e|now tok|tok]; simpl.
  - destruct Hws as [Hpos Hws]. split; [simpl; lia|].
    intros key ttl j. simpl. unfold setex. rewrite lookup_insert. case_decide as Hk.
    + intros Heq. inversion Heq; subst ttl j key. simpl.
      split; [done|]. split; [lia|]. done.
    + intros Hlook. destruct (Hws _ _ _ Hlook) as (? & ? & ? & ?).
      split; [done|]. split; [lia|]. done.
  - by apply well_stored_update.
  - unfold cancel_job. destruct (get_job tok self); [|done].
    destruct (str_in _ _); [|done]. by apply well_stored_update.
  - destruct Hws as [Hpos Hws]. split; [done|].
    intros key ttl j. simpl. unfold redis_expire. intros Hlook.
    apply lookup_delete_Some in Hlook as [_ Hlook]. by apply Hws.
Qed.

Lemma well_stored_run cs : forall self, well_stored self -> well_stored (snd (run cs self)).
Proof.
  induction cs as [|c cs IH]; intros self Hws; [done|].
  simpl. pose proof (well_stored_exec c self Hws) as Hws'.
  destruct (exec c self) as [o self']. simpl in Hws'.
  specialize (IH self' Hws'). by destruct (run cs self') as [toks self''].
Qed.

Lemma well_stored_init : well_stored init.
Proof.
  split; [done|]. intros key ttl job Hlook. simpl in Hlook.
  by rewrite lookup_empty in Hlook.
Qed.

(** A stored job lies under its own token. *)
Lemma well_stored_token tok self job :
  well_stored self -> get_job tok self = Some job ->
  JobManager.token job = tok /\ 1 <= tok <= job_counter self.
Proof.
  intros [_ Hws] Hget. apply get_job_lookup in Hget as [ttl Hlook].
  destruct (Hws _ _ _ Hlook) as (Hkey & Hrange & _).
  apply (inj job_key) in Hkey. by subst tok.
Qed.

(** X1. [create_job] returns the counter plus one and stores under that
    token a pending job of the given type and parameters, with the
    creation time, no step, no data and no error; the job of every other
    token is as before. *)
Theorem create_job_then_get now ty ps self :
  let tok := fst (create_job now ty ps self) in
  let self' := snd (create_job now ty ps self) in
  tok = job_counter self + 1 /\
  job_counter self' = tok /\
  get_job tok self' = Some (mk_job tok ty "pending" now ps [] JNull None) /\
  (forall tok', tok' <> tok -> get_job tok' self' = get_job tok' self).
Proof.
  cbv zeta. split; [done|]. split; [done|]. split.
  - rewrite get_job_create. by rewrite decide_True.
  - intros tok' Hne. rewrite get_job_create. by rewrite decide_False.
Qed.

Lemma well_stored_run_init cs : well_stored (snd (run cs init)).
Proof. apply well_stored_run, well_stored_init. Qed.

Lemma own_well_stored_update now tok st stp d e self :
  own_well_stored self -> own_well_stored (update_job_status now tok st stp d e self).
Proof.
  intros [Hpos Hws]. destruct (get_job tok self) as [job|] eqn:Hget;
    [|by rewrite get_job_update_None].
  destruct (redis_update now tok st stp d e self job Hget) as (job' & -> & Htok & Hsteps).
  apply get_job_lookup in Hget as [ttl0 Hlook].
  split; [done|]. intros tok' ttl j Hrange. simpl. rewrite lookup_insert.
  case_decide as Hk.
  - apply (inj job_key) in Hk. subst tok'. intros Heq. inversion Heq; subst ttl j.
    destruct (Hws tok ttl0 job Hrange Hlook) as (Htoken & _ & Hnum).
    rewrite Htok. split; [done|]. split; [done|].
    destruct Hsteps as [Hs | [msg Hs]]; rewrite Hs; [done | by apply steps_numbered_snoc].
  - by apply Hws.
Qed.

Lemma own_well_stored_exec c self :
  own_well_stored self -> own_well_stored (snd (exec c self)).
Proof.
  intros Hws. destruct c as [now ty ps|now tok st stp d e|now tok|tok]; simpl.
  - destruct Hws as [Hpos Hws]. split; [simpl; lia|].
    intros tok' ttl j Hrange. simpl in *. unfold setex. rewrite lookup_insert.
    case_decide as Hk.
    + apply (inj job_key) in Hk. subst tok'. intros Heq. inversion Heq; subst ttl j.
      by simpl.
    + intros Hlook. apply (Hws tok' ttl j); [|done].
      assert (tok' <> job_counter self + 1) by (by intros ->). lia.
  - by apply own_well_stored_update.
  - unfold cancel_job. destruct (get_job tok self); [|done].
    destruct (str_in _ _); [|done]. by apply own_well_stored_update.
  - destruct Hws as [Hpos Hws]. split; [done|].
    intros tok' ttl j Hrange. simpl. unfold redis_expire. intros Hlook.
    apply lookup_delete_Some in Hlook as [_ Hlook]. by apply (Hws tok' ttl j).
Qed.

Lemma own_well_stored_run cs : forall self,
  own_well_stored self -> own_well_stored (snd (run cs self)).
Proof.
  induction cs as [|c cs IH]; intros self Hws; [done|].
  simpl. pose proof (own_well_stored_exec c self Hws) as Hws'.
  destruct (exec c self) as [o self']. simpl in Hws'.
  specialize (IH self' Hws'). by destruct (run cs self') as [toks self''].
Qed.

Lemma own_well_stored_start r : own_well_stored (start r).
Proof. split; [done|]. intros tok ttl job Hrange. simpl in Hrange. lia. Qed.

(** X2. Whatever the store held when the manager started, after any calls
    the jobs the manager created are well kept: under the key of a token
    from 1 to the counter lies, if anything, a record that carries that
    token, with the time-to-live 3600 and its steps numbered 1, 2, ..., in
    order. *)
Theorem run_well_stored r cs : own_well_stored (snd (run cs (start r))).
Proof. apply own_well_stored_run, own_well_stored_start. Qed.

Lemma run_app cs1 cs2 self :
  snd (run (cs1 ++ cs2) self) = snd (run cs2 (snd (run cs1 self))).
Proof.
  revert self. induction cs1 as [|c cs1 IH]; intros self; [done|].
  simpl. destruct (exec c self) as [o self']. specialize (IH self').
  destruct (run cs1 self') as [t1 s1]. destruct (run (cs1 ++ cs2) self') as [t2 s2].
  simpl in *. rewrite IH. by destruct (run cs2 s1).
Qed.

Lemma extends_refl job : extends job job.
Proof. repeat split; try done. exists []. by rewrite app_nil_r. Qed.

Lemma extends_trans j1 j2 j3 : extends j1 j2 -> extends j2 j3 -> extends j1 j3.
Proof.
  intros (? & ? & ? & ? & m1 & Hm1) (? & ? & ? & ? & m2 & Hm2).
  repeat split; try congruence. exists (m1 ++ m2). by rewrite Hm2, Hm1, app_assoc.
Qed.

Lemma update_extends now tok st stp d e self job :
  get_job tok self = Some job ->
  exists job', get_job tok (update_job_status now tok st stp d e self) = Some job' /\
               extends job job'.
Proof.
  intros Hget.
  destruct (get_job_update now tok st stp d e self job Hget)
    as (job' & Hget' & _ & Hsteps & _ & _ & ? & ? & ? & ?).
  exists job'. split; [done|]. repeat split; try done.
  destruct (truthy_str stp); rewrite Hsteps; eauto. exists []. by rewrite app_nil_r.
Qed.

(** One call on a stored job: the job is extended, or evicted. *)
Lemma exec_extends c tok self job :
  tok <= job_counter self -> get_job tok self = Some job ->
  match get_job tok (snd (exec c self)) with
  | Some job' => extends job job'
  | None => c = Expire tok
  end.
Proof.
  intros Hrange Hget.
  destruct c as [now ty ps|now tok' st stp d e|now tok'|tok'].
  - change (snd (exec (CreateJob now ty ps) self)) with (snd (create_job now ty ps self)).
    rewrite get_job_create, decide_False by lia. rewrite Hget. apply extends_refl.
  - change (snd (exec (UpdateJobStatus now tok' st stp d e) self))
      with (update_job_status now tok' st stp d e self).
    destruct (decide (tok' = tok)) as [->|Hne].
    + destruct (update_extends now tok st stp d e self job Hget) as (job' & -> & Hext).
      done.
    + rewrite get_job_update_ne by done. rewrite Hget. apply extends_refl.
  - change (snd (exec (CancelJob now tok') self)) with (snd (cancel_job now tok' self)).
    unfold cancel_job. destruct (get_job tok' self) as [job0|] eqn:Hget0;
      [|cbn [snd]; rewrite Hget; apply extends_refl].
    destruct (str_in _ _); [|cbn [snd]; rewrite Hget; apply extends_refl]. cbn [snd].
    destruct (decide (tok' = tok)) as [->|Hne].
    + destruct (update_extends now tok "cancelled" (Some "Job cancelled by user") JNull
                  None self job Hget) as (job' & -> & Hext).
      done.
    + rewrite get_job_update_ne by done. rewrite Hget. apply extends_refl.
  - change (snd (exec (Expire tok') self)) with (expire tok' self).
    rewrite get_job_expire. case_decide as Heq; [by subst|].
    rewrite Hget. apply extends_refl.
Qed.

(** One call on a token the counter has passed and the store does not
    hold: the store still does not hold it. *)
Lemma exec_stays_none c tok self :
  tok <= job_counter self -> get_job tok self = None ->
  get_job tok (snd (exec c self)) = None.
Proof.
  intros Hle Hnone. destruct c as [now ty ps|now tok' st stp d e|now tok'|tok'].
  - change (snd (exec (CreateJob now ty ps) self)) with (snd (create_job now ty ps self)).
    by rewrite get_job_create, decide_False by lia.
  - change (snd (exec (UpdateJobStatus now tok' st stp d e) self))
      with (update_job_status now tok' st stp d e self).
    destruct (decide (tok' = tok)) as [->|Hne].
    + by rewrite get_job_update_None.
    + by rewrite get_job_update_ne.
  - change (snd (exec (CancelJob now tok') self)) with (snd (cancel_job now tok' self)).
    unfold cancel_job. destruct (get_job tok' self) as [job0|] eqn:Hget0; [|done].
    destruct (str_in _ _); [|done]. cbn [snd].
    destruct (decide (tok' = tok)) as [->|Hne]; [congruence|].
    by rewrite get_job_update_ne.
  - change (snd (exec (Expire tok') self)) with (expire tok' self).
    rewrite get_job_expire. by case_decide.
Qed.

Lemma run_stays_none cs : forall tok self,
  tok <= job_counter self -> get_job tok self = None ->
  get_job tok (snd (run cs self)) = None.
Proof.
  induction cs as [|c cs IH]; intros tok self Hle Hnone; [done|].
  simpl. pose proof (exec_stays_none c tok self Hle Hnone) as Hnone'.
  pose proof (job_counter_exec c self) as Hc.
  destruct (exec c self) as [o self']. simpl in Hnone', Hc.
  assert (Hle' : tok <= job_counter self').
  { rewrite Hc. unfold creations. lia. }
  specialize (IH tok self' Hle' Hnone'). by destruct (run cs self') as [toks self''].
Qed.

Lemma run_extends cs : forall tok self job,
  tok <= job_counter self -> get_job tok self = Some job ->
  forall job', get_job tok (snd (run cs self)) = Some job' -> extends job job'.
Proof.
  induction cs as [|c cs IH]; intros tok self job Hrange Hget job' Hget'.
  - simpl in Hget'. rewrite Hget in Hget'. inversion Hget'. apply extends_refl.
  - simpl in Hget'. pose proof (exec_extends c tok self job Hrange Hget) as Hstep.
    pose proof (job_counter_exec c self) as Hc.
    destruct (exec c self) as [o self']. simpl in Hstep, Hc.
    assert (Hle' : tok <= job_counter self').
    { rewrite Hc. unfold creations. lia. }
    destruct (get_job tok self') as [job1|] eqn:Hget1.
    + eapply extends_trans; [exact Hstep|].
      apply (IH tok self' job1 Hle' Hget1).
      by destruct (run cs self') as [toks self''].
    + pose proof (run_stays_none cs tok self' Hle' Hget1) as Hnone.
      destruct (run cs self') as [toks self'']. simpl in *. congruence.
Qed.

(** X3. Whatever the store held at the start and whatever calls follow, a
    job under a token the counter has reached, so every job the manager
    created, is only ever extended while it is stored: its token, type,
    creation time and parameters stay the same, and its earlier steps
    stay, unchanged, the first of its steps. *)
Theorem stored_job_only_extended r cs1 cs2 tok job job' :
  tok <= job_counter (snd (run cs1 (start r))) ->
  get_job tok (snd (run cs1 (start r))) = Some job ->
  get_job tok (snd (run (cs1 ++ cs2) (start r))) = Some job' ->
  extends job job'.
Proof.
  intros Hrange Hget Hget'. rewrite run_app in Hget'.
  eapply run_extends; [exact Hrange | exact Hget | exact Hget'].
Qed.

Lemma stored_job_only_extended_witness :
  extends (mk_job 1 "query" "running" "t0" JNull [mk_step 1 "Executing query" "t1"] JNull None)
    (mk_job 1 "query" "cancelled" "t0" JNull
       [mk_step 1 "Executing query" "t1"; mk_step 2 "Job cancelled by user" "t3"]
       JNull None).
Proof.
  apply (stored_job_only_extended
           {[ job_key 1 := (3600, mk_job 1 "discover" "completed" "t" JNull [] JNull None);
              job_key 7 := (3600, mk_job 7 "preview" "running" "t" JNull [] JNull None) ]}
           [CreateJob "t0" "query" JNull;
            UpdateJobStatus "t1" 1 "running" (Some "Executing query") JNull None]
           [CreateJob "t2" "preview" JNull; CancelJob "t3" 1] 1);
    [vm_compute; discriminate | reflexivity | reflexivity].
Defined.

(** X4. Whatever the store held at the start, once the job of a token the
    counter has reached is evicted, the token stays without a job under
    every later call: no creation hands it out again, [get_job] finds
    nothing, [update_job_status] changes nothing and [cancel_job] returns
    [False]. *)
Theorem evicted_token_never_returns r cs1 cs2 tok :
  tok <= job_counter (snd (run cs1 (start r))) ->
  let self := snd (run (cs1 ++ Expire tok :: cs2) (start r)) in
  get_job tok self = None /\
  ~ In tok (fst (run cs2 (expire tok (snd (run cs1 (start r)))))) /\
  (forall now st stp d e, update_job_status now tok st stp d e self = self) /\
  (forall now, cancel_job now tok self = (false, self)).
Proof.
  intros Hrange. cbv zeta. rewrite run_app.
  set (self1 := snd (run cs1 (start r))) in *.
  assert (Hrun : snd (run (Expire tok :: cs2) self1) = snd (run cs2 (expire tok self1))).
  { simpl. by destruct (run cs2 (expire tok self1)). }
  rewrite Hrun.
  assert (Hnone : get_job tok (snd (run cs2 (expire tok self1))) = None).
  { apply run_stays_none; [simpl; lia|]. rewrite get_job_expire. by rewrite decide_True. }
  split; [done|]. split.
  - destruct (run_tokens cs2 (expire tok self1)) as [-> _]. simpl.
    rewrite <- list_elem_of_In, elem_of_seqZ. lia.
  - split; [intros; by apply get_job_update_None | intros; by apply cancel_job_unknown].
Qed.

Lemma evicted_token_never_returns_witness :
  let self := snd (run [CreateJob "t0" "query" JNull; Expire 1;
                        CreateJob "t1" "query" JNull;
                        UpdateJobStatus "t2" 1 "completed" (Some "done") JNull None]
                     init) in
  get_job 1 self = None /\ cancel_job "t3" 1 self = (false, self).
Proof.
  intros self.
  destruct (evicted_token_never_returns ∅ [CreateJob "t0" "query" JNull]
              [CreateJob "t1" "query" JNull;
               UpdateJobStatus "t2" 1 "completed" (Some "done") JNull None] 1)
    as (Hnone & _ & _ & Hcancel); [vm_compute; discriminate|].
  split; [exact Hnone | apply Hcancel].
Defined.

(** *** Listing *)

Lemma list_jobs_loop_omap (r : redis) keys : forall jobs,
  list_jobs_loop r keys jobs = jobs ++ omap (fun key => redis_get key r) keys.
Proof.
  induction keys as [|key keys IH]; intros jobs; simpl.
  - by rewrite app_nil_r.
  - destruct (redis_get key r) as [job|]; [|apply IH].
    by rewrite IH, <- app_assoc.
Qed.

Lemma insert_newest_first_perm x l : Permutation (insert_newest_first x l) (x :: l).
Proof.
  induction l as [|y l IH]; simpl; [done|].
  destruct (String.ltb _ _); [|done]. rewrite IH. apply perm_swap.
Qed.

Lemma sorted_newest_first_perm l : Permutation (sorted_newest_first l) l.
Proof.
  induction l as [|x l IH]; simpl; [done|].
  rewrite insert_newest_first_perm. by constructor.
Qed.

Lemma not_ltb_not_older x y :
  String.ltb (created_at x) (created_at y) = false -> not_older x y.
Proof.
  unfold not_older, String.ltb, String.leb.
  rewrite (String.compare_antisym (created_at y) (created_at x)).
  by destruct (String.compare (created_at x) (created_at y)).
Qed.

Lemma ltb_not_older x y :
  String.ltb (created_at x) (created_at y) = true -> not_older y x.
Proof.
  unfold not_older, String.ltb, String.leb.
  by destruct (String.compare (created_at x) (created_at y)).
Qed.

Lemma insert_newest_first_sorted x l :
  Sorted not_older l -> Sorted not_older (insert_newest_first x l).
Proof.
  induction l as [|y l IH]; intros Hs; simpl.
  - by repeat constructor.
  - destruct (String.ltb (created_at x) (created_at y)) eqn:Hlt.
    + inversion Hs as [|? ? Hs' Hhd]; subst. constructor; [by apply IH|].
      destruct l as [|z l]; simpl.
      * constructor. by apply ltb_not_older.
      * destruct (String.ltb (created_at x) (created_at z)).
        -- inversion Hhd; subst. by constructor.
        -- constructor. by apply ltb_not_older.
    + constructor; [done|]. constructor. by apply not_ltb_not_older.
Qed.

Lemma sorted_newest_first_sorted l : Sorted not_older (sorted_newest_first l).
Proof.
  induction l as [|x l IH]; simpl; [constructor|]. by apply insert_newest_first_sorted.
Qed.

Lemma filter_all {A} (f : A -> bool) l :
  (forall x, In x l -> f x = true) -> List.filter f l = l.
Proof.
  induction l as [|x l IH]; intros H; simpl; [done|].
  rewrite (H x) by (by left). f_equal. apply IH. intros y Hy. apply H. by right.
Qed.

Lemma omap_map_total {A B C} (g : B -> option C) (f : A -> B) (h : A -> C) l :
  (forall x, In x l -> g (f x) = Some (h x)) -> omap g (map f l) = map h l.
Proof.
  induction l as [|x l IH]; intros H; simpl; [done|].
  rewrite (H x) by (by left). f_equal. apply IH. intros y Hy. apply H. by right.
Qed.

Lemma prefix_job_key tok : String.prefix "job:" (job_key tok) = true.
Proof. unfold job_key. simpl. by destruct (pretty tok). Qed.

(** Under the invariant of the store, the listing sorts the stored jobs. *)
Lemma list_jobs_stored self :
  well_stored self ->
  list_jobs self =
  sorted_newest_first (map (fun e => snd (snd e)) (map_to_list (redis_client self))).
Proof.
  intros [_ Hws]. unfold list_jobs, redis_keys. rewrite list_jobs_loop_omap. simpl.
  f_equal. rewrite filter_all.
  - apply omap_map_total. intros [key [ttl job]] Hin. simpl.
    apply list_elem_of_In, elem_of_map_to_list in Hin. unfold redis_get. by rewrite Hin.
  - intros key Hin. apply in_map_iff in Hin as ([key' [ttl job]] & <- & Hin). simpl.
    apply list_elem_of_In, elem_of_map_to_list in Hin.
    destruct (Hws _ _ _ Hin) as [-> _]. apply prefix_job_key.
Qed.

(** X5. After any calls on a fresh manager, [list_jobs] returns the stored
    jobs, each once: a job is listed exactly when [get_job] finds it under
    its token, there are as many as entries in the store, and no job comes
    before one that was created later. *)
Theorem list_jobs_newest_first cs :
  let self := snd (run cs init) in
  Sorted not_older (list_jobs self) /\
  (forall job, In job (list_jobs self) <-> get_job (JobManager.token job) self = Some job) /\
  length (list_jobs self) = size (redis_client self).
Proof.
  intros self. pose proof (well_stored_run_init cs) as Hws. fold self in Hws.
  rewrite (list_jobs_stored self Hws).
  split; [apply sorted_newest_first_sorted|]. split.
  - intros job. rewrite (Permutation_in' eq_refl (sorted_newest_first_perm _)).
    rewrite in_map_iff. split.
    + intros ([key [ttl job']] & Heq & Hin). simpl in Heq. subst job'.
      apply list_elem_of_In, elem_of_map_to_list in Hin.
      destruct Hws as [_ Hws]. destruct (Hws _ _ _ Hin) as [Hkey _].
      apply get_job_lookup. exists ttl. by rewrite <- Hkey.
    + intros Hget. apply get_job_lookup in Hget as [ttl Hlook].
      exists (job_key (JobManager.token job), (ttl, job)). split; [done|].
      by apply list_elem_of_In, elem_of_map_to_list.
  - rewrite (Permutation_length (sorted_newest_first_perm _)), length_map.
    apply length_map_to_list.
Qed.

Example list_two_jobs :
  map JobManager.token
    (list_jobs (snd (run [CreateJob "2024-01-01T10:00:00" "discover" JNull;
                          CreateJob "2024-01-01T10:00:05" "query" JNull] init))) = [2; 1].
Proof. vm_compute. reflexivity. Qed.

End StoreFacts.

(** ** Discovery *)

Section DiscoveryFacts.

Import DataProcessor.

Variable settings : Settings.
Variable fs : node.

Local Abbreviation infos := (DataProcessor.infos settings fs).

Lemma discover_loop_uncapped max_files entries : forall acc,
  truthy_int max_files = false ->
  discover_loop settings fs max_files entries acc = (acc ++ infos entries, []).
Proof.
  intros acc Hmax. revert acc. induction entries as [|p entries IH]; intros acc; simpl.
  - unfold DataProcessor.infos. simpl. by rewrite app_nil_r.
  - fold (eligible settings fs p). unfold DataProcessor.infos. simpl.
    destruct (eligible settings fs p); [|apply IH].
    rewrite Hmax. simpl. rewrite IH. unfold DataProcessor.infos.
    by rewrite <- app_assoc.
Qed.

Lemma discover_loop_capped m entries : forall acc,
  m <> 0 -> (length acc < cap m)%nat ->
  fst (discover_loop settings fs (Some m) entries acc) =
  acc ++ firstn (cap m - length acc) (infos entries).
Proof.
  intros acc Hm. revert acc. induction entries as [|p entries IH]; intros acc Hacc; simpl.
  - unfold DataProcessor.infos. simpl. by rewrite firstn_nil, app_nil_r.
  - fold (eligible settings fs p). unfold DataProcessor.infos. simpl.
    fold (DataProcessor.infos settings fs entries).
    destruct (eligible settings fs p); [|by apply IH].
    assert (Htr : (m =? 0) = false) by lia. rewrite Htr. simpl.
    rewrite length_app. simpl.
    destruct (Z.leb_spec m (Z.of_nat (length acc + 1))) as [Hfull|Hroom]; simpl.
    + assert (Hone : (cap m - length acc = 1)%nat) by (unfold cap in *; lia).
      rewrite Hone. simpl. by rewrite firstn_O.
    + rewrite IH by (rewrite length_app; simpl; unfold cap in *; lia).
      rewrite length_app. simpl. rewrite <- app_assoc. simpl.
      replace (cap m - length acc)%nat with (S (cap m - (length acc + 1)))
        by (unfold cap in *; lia).
      reflexivity.
Qed.

(** Over a directory, the result in terms of the eligible entries. *)
Lemma discover_files_directory_infos ds uri (recurse : bool) max_files :
  exists_ fs (Path_of uri) = true ->
  is_file fs (Path_of uri) = false ->
  let all := infos (glob fs (Path_of uri) (if recurse then "**/*" else "*")) in
  discover_files settings fs ds uri recurse max_files =
  inr (if truthy_int max_files then firstn (cap (default 0 max_files)) all else all).
Proof.
  intros Hex Hdir all. unfold discover_files. rewrite Hex, Hdir. simpl. f_equal.
  destruct (truthy_int max_files) eqn:Hmax.
  - destruct max_files as [m|]; [|done]. simpl in *.
    rewrite discover_loop_capped; [by rewrite Nat.sub_0_r | lia | unfold cap; simpl; lia].
  - by rewrite discover_loop_uncapped.
Qed.

(** X6. Over a directory, [discover_files] returns the descriptors of the
    eligible entries in glob order: all of them when [max_files] is absent
    or 0, else the first [max_files] of them, and the first one alone when
    [max_files] is negative. *)
Theorem discover_files_directory ds uri (recurse : bool) max_files :
  exists_ fs (Path_of uri) = true ->
  is_file fs (Path_of uri) = false ->
  let all := infos (glob fs (Path_of uri) (if recurse then "**/*" else "*")) in
  discover_files settings fs ds uri recurse max_files =
  inr (if truthy_int max_files then firstn (cap (default 0 max_files)) all else all).
Proof. apply discover_files_directory_infos. Qed.

Lemma infos_sound entries d :
  In d (infos entries) ->
  exists p, In p entries /\ eligible settings fs p = true /\ d = _get_file_info fs p.
Proof.
  unfold DataProcessor.infos. rewrite in_map_iff.
  intros (p & <- & Hin). apply filter_In in Hin as [Hin Hel]. eauto.
Qed.

Lemma In_firstn {A} n (l : list A) x : In x (firstn n l) -> In x l.
Proof.
  revert n. induction l as [|y l IH]; intros [|n]; simpl; try done.
  intros [->|H]; [by left | right; by eapply IH].
Qed.

Lemma eligible_described p :
  eligible settings fs p = true ->
  exists st_size st_mtime,
    resolve fs p = Some (File st_size st_mtime) /\
    _get_file_info fs p =
      mk_info (Path_str p) (Path_name p) st_size st_mtime (Path_suffix p) /\
    In (lower (Path_suffix p)) (allowed_extensions_list settings).
Proof.
  unfold eligible, is_file, _is_supported_file, _get_file_info.
  intros [Hfile Hsup]%andb_prop.
  destruct (resolve fs p) as [[sz mt|es]|]; try done.
  exists sz, mt. split; [done|]. split; [done|]. by apply str_in_spec.
Qed.

(** What a returned descriptor describes. *)
Lemma discover_files_described ds uri recurse max_files files d :
  discover_files settings fs ds uri recurse max_files = inr files ->
  In d files ->
  exists p st_size st_mtime,
    resolve fs p = Some (File st_size st_mtime) /\
    d = mk_info (Path_str p) (Path_name p) st_size st_mtime (Path_suffix p) /\
    In (lower (extension d)) (allowed_extensions_list settings).
Proof.
  intros Hfiles Hin.
  assert (Hp : exists p, eligible settings fs p = true /\ d = _get_file_info fs p).
  { destruct (exists_ fs (Path_of uri)) eqn:Hex;
      [|unfold discover_files in Hfiles; by rewrite Hex in Hfiles].
    destruct (is_file fs (Path_of uri)) eqn:Hfile.
    - unfold discover_files in Hfiles. rewrite Hex, Hfile in Hfiles. simpl in Hfiles.
      destruct (_is_supported_file settings (Path_of uri)) eqn:Hsup;
        inversion Hfiles; subst files; [|done].
      destruct Hin as [<-|[]]. exists (Path_of uri). split; [|done].
      unfold eligible. by rewrite Hfile, Hsup.
    - rewrite (discover_files_directory_infos ds uri recurse max_files Hex Hfile) in Hfiles.
      inversion Hfiles; subst files. clear Hfiles.
      assert (Hall : In d (infos (glob fs (Path_of uri) (if recurse then "**/*" else "*")))).
      { destruct (truthy_int max_files); [by eapply In_firstn | done]. }
      apply infos_sound in Hall as (p & _ & Hel & ->). eauto. }
  destruct Hp as (p & Hel & ->).
  destruct (eligible_described p Hel) as (sz & mt & Hres & Hinfo & Hallowed).
  exists p, sz, mt. rewrite Hinfo. simpl. done.
Qed.

(** X7. Whatever the root, the flags and the cap, every descriptor that
    [discover_files] returns describes a regular file of the tree whose
    lower-cased suffix is in the allow-list, with the size and change time
    the tree records for it: no directory, no other file, nothing made
    up. *)
Theorem discover_files_sound ds uri recurse max_files files d :
  discover_files settings fs ds uri recurse max_files = inr files ->
  In d files ->
  exists p st_size st_mtime,
    resolve fs p = Some (File st_size st_mtime) /\
    d = mk_info (Path_str p) (Path_name p) st_size st_mtime (Path_suffix p) /\
    In (lower (extension d)) (allowed_extensions_list settings).
Proof. apply discover_files_described. Qed.

(** The recursive listing of a directory begins with its own entries. *)
Lemma glob_recursive_prefix p :
  exists below, glob fs p "**/*" = glob fs p "*" ++ below.
Proof.
  unfold glob. destruct (resolve fs p) as [n|]; [|by exists []]. simpl.
  destruct n as [sz mt|es]; simpl; [by exists []|]. eauto.
Qed.

(** X8. With the same cap, the files found without recursion are the first
    of the files found with it: recursion only adds files after them. *)
Theorem discover_files_recursion_extends ds uri max_files flat :
  discover_files settings fs ds uri false max_files = inr flat ->
  exists more, discover_files settings fs ds uri true max_files = inr (flat ++ more).
Proof.
  intros Hflat.
  destruct (exists_ fs (Path_of uri)) eqn:Hex;
    [|unfold discover_files in Hflat; by rewrite Hex in Hflat].
  destruct (is_file fs (Path_of uri)) eqn:Hfile.
  - exists []. unfold discover_files in *. rewrite Hex, Hfile in *.
    by rewrite app_nil_r.
  - rewrite (discover_files_directory_infos ds uri false max_files Hex Hfile) in Hflat.
    rewrite (discover_files_directory_infos ds uri true max_files Hex Hfile).
    destruct (glob_recursive_prefix (Path_of uri)) as [below ->].
    inversion Hflat; subst flat; clear Hflat.
    unfold DataProcessor.infos. rewrite List.filter_app, map_app.
    fold (infos (glob fs (Path_of uri) "*")). fold (infos below).
    destruct (truthy_int max_files).
    + eexists. f_equal. apply List.firstn_app.
    + by eexists.
Qed.

End DiscoveryFacts.

(** X6 and X8: the sample directory under the caps 2, 0 and -1, and
    without recursion. *)
Lemma discover_files_directory_witness :
  let names r := match r with inr files => map DataProcessor.name files | inl _ => [] end in
  let discover := DataProcessor.discover_files default_settings Sample.fs5 "ds" "in" in
  names (discover true (Some 2)) = ["a.csv"; "b.CSV"] /\
  names (discover true (Some 0)) = ["a.csv"; "b.CSV"; "c.jsonl"; "d.parquet"; "e.csv"] /\
  names (discover true (Some (-1))) = ["a.csv"] /\
  names (discover false None) = ["a.csv"; "b.CSV"; "c.jsonl"; "d.parquet"].
Proof.
  intros names discover. unfold discover.
  rewrite !(discover_files_directory default_settings Sample.fs5 "ds" "in")
    by reflexivity.
  repeat split; reflexivity.
Defined.

Lemma discover_files_recursion_extends_witness :
  exists more,
    DataProcessor.discover_files default_settings Sample.fs5 "ds" "in" true None =
    inr (map (DataProcessor._get_file_info Sample.fs5)
           [["in"; "a.csv"]; ["in"; "b.CSV"]; ["in"; "c.jsonl"]; ["in"; "d.parquet"]]
         ++ more).
Proof.
  apply (discover_files_recursion_extends default_settings Sample.fs5 "ds" "in" None).
  reflexivity.
Defined.

Lemma discover_files_sound_witness :
  exists p st_size st_mtime,
    resolve Sample.fs5 p = Some (File st_size st_mtime) /\
    DataProcessor.mk_info "in/sub/e.csv" "e.csv" 50 5 ".csv" =
      DataProcessor.mk_info (Path_str p) (Path_name p) st_size st_mtime (Path_suffix p) /\
    In ".csv" (allowed_extensions_list default_settings).
Proof.
  eapply (discover_files_sound default_settings Sample.fs5 "ds" "in" true None);
    [reflexivity|].
  simpl. do 4 right. left. reflexivity.
Defined.

(** ** From discovery to loading *)

Section PathFacts.

Import DataProcessor.

Lemma split_nonempty sep s : split sep s <> [].
Proof.
  destruct s as [|c s]; simpl; [done|].
  destruct (Ascii.eqb c sep); [done|]. by destruct (split sep s).
Qed.

Lemma split_no_slash x : no_slash x = true -> split "/" x = [x].
Proof.
  induction x as [|c x IH]; simpl; [done|].
  intros [Hc Hx]%andb_prop. destruct (Ascii.eqb c "/"); [done|].
  by rewrite IH.
Qed.

Lemma split_app_sep s x :
  split "/" (s +:+ String "/" x) = split "/" s ++ split "/" x.
Proof.
  induction s as [|c s IH]; simpl; [done|].
  destruct (Ascii.eqb c "/"); [by rewrite IH|].
  rewrite IH. pose proof (split_nonempty "/" s). by destruct (split "/" s).
Qed.

Lemma append_assoc (s t u : string) : (s +:+ t) +:+ u = s +:+ (t +:+ u).
Proof.
  induction s as [|c s IH]; [done|].
  change (String c ((s +:+ t) +:+ u) = String c (s +:+ (t +:+ u))). by rewrite IH.
Qed.

Lemma concat_snoc q : forall p x,
  String.concat "/" ((p :: q) ++ [x]) = String.concat "/" (p :: q) +:+ String "/" x.
Proof.
  induction q as [|r q IH]; intros p x; [done|].
  change (String.concat "/" ((p :: r :: q) ++ [x]))
    with (p +:+ String "/" (String.concat "/" ((r :: q) ++ [x]))).
  change (String.concat "/" (p :: r :: q))
    with (p +:+ String "/" (String.concat "/" (r :: q))).
  rewrite IH, append_assoc. reflexivity.
Qed.

Lemma last_filter_snoc {A} (f : A -> bool) l x d :
  f x = true -> List.last (List.filter f (l ++ [x])) d = x.
Proof.
  intros Hx. rewrite List.filter_app. simpl. rewrite Hx. apply last_last.
Qed.

(** A path read back from its string has the name it had, when that name
    is a proper file name. *)
Lemma Path_name_str q x :
  no_slash x = true -> x <> "" -> x <> "." ->
  Path_name (Path_of (Path_str (q ++ [x]))) = x.
Proof.
  intros Hslash Hne Hdot.
  assert (Hkeep : negb (String.eqb x "" || String.eqb x ".") = true).
  { destruct (String.eqb_spec x ""); [done|]. by destruct (String.eqb_spec x "."). }
  unfold Path_name, Path_of, Path_str. destruct q as [|p0 q].
  - simpl. rewrite split_no_slash by done. simpl. by rewrite Hkeep.
  - change (match (p0 :: q) ++ [x] with
            | [] => "."
            | _ :: _ => String.concat "/" ((p0 :: q) ++ [x])
            end) with (String.concat "/" ((p0 :: q) ++ [x])).
    rewrite concat_snoc, split_app_sep, (split_no_slash x) by done.
    by apply last_filter_snoc.
Qed.

Lemma Path_suffix_name p q : Path_name p = Path_name q -> Path_suffix p = Path_suffix q.
Proof. unfold Path_suffix. by intros ->. Qed.

Lemma suffix_proper_name p :
  Path_suffix p <> "" -> Path_name p <> "" /\ Path_name p <> ".".
Proof.
  unfold Path_suffix. intros Hsuf. split; intros Heq; rewrite Heq in Hsuf; by apply Hsuf.
Qed.

(** X9. Under the default settings, every file that [discover_files]
    returns is one [_load_file] has a reader for: read back from the
    descriptor's path string, the suffix is the one discovery saw, so the
    load is the call of the reader of that suffix and never the
    "Unsupported file format" error.  (A file name holds no slash.) *)
Theorem discovered_file_loads fs read_csv read_parquet read_ndjson
    ds uri recurse max_files files d n_rows :
  discover_files default_settings fs ds uri recurse max_files = inr files ->
  In d files ->
  no_slash (name d) = true ->
  let load := _load_file read_csv read_parquet read_ndjson in
  (lower (extension d) = ".csv" /\
   load (path d) n_rows = lift (read_csv (path d) n_rows)) \/
  (lower (extension d) = ".parquet" /\
   load (path d) n_rows = lift (read_parquet (path d) n_rows)) \/
  (lower (extension d) = ".jsonl" /\
   load (path d) n_rows = lift (read_ndjson (path d) n_rows)).
Proof.
  intros Hfiles Hin Hslash load.
  destruct (discover_files_described _ _ _ _ _ _ _ _ Hfiles Hin)
    as (p & sz & mt & _ & -> & Hallowed).
  simpl in *. change (allowed_extensions_list default_settings)
    with [".csv"; ".parquet"; ".jsonl"] in Hallowed.
  assert (Hsuf : Path_suffix p <> "").
  { intros Heq. rewrite Heq in Hallowed. simpl in Hallowed.
    destruct Hallowed as [H|[H|[H|[]]]]; discriminate H. }
  destruct (suffix_proper_name p Hsuf) as [Hne Hdot].
  assert (Hback : Path_suffix (Path_of (Path_str p)) = Path_suffix p).
  { apply Path_suffix_name.
    destruct (@exists_last _ p) as (q & x & ->); [by intros ->|].
    unfold Path_name in Hslash, Hne, Hdot |- *. rewrite last_last in *.
    exact (Path_name_str q x Hslash Hne Hdot). }
  unfold load, _load_file. rewrite Hback.
  destruct Hallowed as [H|[H|[H|[]]]]; rewrite <- H; simpl; auto.
Qed.

End PathFacts.

Lemma discovered_file_loads_witness :
  DataProcessor._load_file Sample.read1 Sample.read1 Sample.read1 "data/t.jsonl" None =
  lift (Sample.read1 "data/t.jsonl" None).
Proof.
  destruct (discovered_file_loads Sample.fs1 Sample.read1 Sample.read1 Sample.read1
              "ds" "data" true None
              [DataProcessor.mk_info "data/t.jsonl" "t.jsonl" 64 0 ".jsonl"]
              (DataProcessor.mk_info "data/t.jsonl" "t.jsonl" 64 0 ".jsonl") None)
    as [[H _]|[[H _]|[_ H]]];
    [reflexivity | by left | reflexivity | discriminate H | discriminate H | exact H].
Defined.

(** Under other settings discovery and loading part ways: a text file is
    found and cannot be loaded. *)
Example allowed_but_not_loadable :
  let settings := mkSettings 50000 20000 ".csv, .txt" in
  let fs := Dir [("notes.txt", File 3 1)] in
  DataProcessor.discover_files settings fs "ds" "" true None =
    inr [DataProcessor.mk_info "notes.txt" "notes.txt" 3 1 ".txt"] /\
  DataProcessor._load_file Sample.read1 Sample.read1 Sample.read1 "notes.txt" None =
    inl (ValueError "Unsupported file format: .txt").
Proof. split; reflexivity. Qed.

(** ** The stages of a query, one by one *)

Section QueryFacts.

Import DataProcessor.

Variable settings : Settings.
Variable fs : node.
Variables read_csv read_parquet read_ndjson :
  string -> option Z -> result polars_error pl.DataFrame.

Local Abbreviation execute_query :=
  (DataProcessor.execute_query settings fs read_csv read_parquet read_ndjson).
Local Abbreviation load := (_load_file read_csv read_parquet read_ndjson).

Lemma agg_exprs_app l1 l2 : agg_exprs (l1 ++ l2) = agg_exprs l1 ++ agg_exprs l2.
Proof.
  induction l1 as [|a l1 IH]; simpl; [done|].
  destruct (String.eqb (agg_fn a) "sum"); [by rewrite IH|].
  destruct (String.eqb (agg_fn a) "count"); by rewrite IH.
Qed.

Lemma agg_exprs_unsupported a l :
  supported_fn (agg_fn a) = false -> agg_exprs (a :: l) = agg_exprs l.
Proof.
  unfold supported_fn. simpl. intros H.
  destruct (String.eqb (agg_fn a) "sum"); [done|].
  by destruct (String.eqb (agg_fn a) "count").
Qed.

Lemma get_cols_length names df cs :
  pl.get_cols names df = inr cs -> length cs = length names.
Proof.
  revert cs. induction names as [|n names IH]; intros cs; simpl.
  - by intros [= <-].
  - destruct (pl.get_col n df) as [e|c]; simpl; [done|].
    destruct (pl.get_cols names df) as [e|cs']; simpl; [done|].
    intros [= <-]. simpl. by rewrite (IH cs').
Qed.

Lemma resolve_exprs_length es df rs :
  pl.resolve_exprs es df = inr rs -> length rs = length es.
Proof.
  revert rs. induction es as [|e es IH]; intros rs; simpl.
  - by intros [= <-].
  - destruct (pl.get_col (pl.expr_col e) df) as [err|[i d]]; simpl; [done|].
    destruct (pl.expr_dtype e d) as [err|d']; simpl; [done|].
    destruct (pl.resolve_exprs es df) as [err|rs']; simpl; [done|].
    intros [= <-]. simpl. by rewrite (IH rs').
Qed.

Lemma map_fst_combine {A B} (l : list A) (l' : list B) :
  length l = length l' -> map fst (combine l l') = l.
Proof.
  revert l'. induction l as [|x l IH]; intros [|y l'] Hlen; simpl in *; try done.
  f_equal. apply IH. lia.
Qed.

(** The columns of a grouped table: the columns it is grouped by, then the
    names of the aggregations. *)
Lemma group_by_agg_columns df by_ es t :
  pl.group_by_agg df by_ es = inr t ->
  pl.columns t = by_ ++ map pl.expr_alias es.
Proof.
  unfold pl.group_by_agg.
  destruct (pl.get_cols by_ df) as [e|ks] eqn:Hks; simpl; [done|].
  destruct (pl.resolve_exprs es df) as [e|rs] eqn:Hrs; simpl; [done|].
  destruct (pl.first_dup _); simpl; [done|].
  intros [= <-]. unfold pl.columns. simpl. apply map_fst_combine.
  rewrite !length_app, !length_map.
  by rewrite (get_cols_length _ _ _ Hks), (resolve_exprs_length _ _ _ Hrs).
Qed.


(** *** Filters *)

Lemma filter_filter {A} (f g : A -> bool) l :
  List.filter f (List.filter g l) = List.filter (fun x => g x && f x) l.
Proof.
  induction l as [|x l IH]; simpl; [done|].
  destruct (g x); simpl; [|done]. destruct (f x); by rewrite IH.
Qed.

Lemma pl_filter_inr df col cm val df' :
  pl.filter df col cm val = inr df' ->
  pl.schema df' = pl.schema df /\
  exists i d lit,
    pl.find_col col (pl.schema df) = Some (i, d) /\ pl.literal d val = inr lit /\
    pl.rows df' =
      List.filter (fun row => default false (pl.compare_cell cm (pl.cell i row) lit))
        (pl.rows df).
Proof.
  unfold pl.filter, pl.get_col.
  destruct (pl.find_col col (pl.schema df)) as [[i d]|]; simpl; [|done].
  destruct (pl.literal d val) as [e|lit] eqn:Hlit; simpl; [done|].
  intros [= <-]. simpl. split; [done|]. by exists i, d, lit.
Qed.

Lemma filter_step df c df1 :
  (if String.eqb (filter_op c) ">=" then lift (pl.filter df (filter_col c) pl.Ge (filter_val c))
   else if String.eqb (filter_op c) "<=" then
          lift (pl.filter df (filter_col c) pl.Le (filter_val c))
   else if String.eqb (filter_op c) "==" then
          lift (pl.filter df (filter_col c) pl.Eq (filter_val c))
   else ret df) = inr df1 ->
  pl.schema df1 = pl.schema df /\
  pl.rows df1 = List.filter (filter_holds (pl.schema df) c) (pl.rows df).
Proof.
  unfold filter_holds, cmp_of_op.
  assert (Hcase : forall cm,
            lift (pl.filter df (filter_col c) cm (filter_val c)) = inr df1 ->
            pl.schema df1 = pl.schema df /\
            pl.rows df1 =
              List.filter
                (fun row =>
                   match pl.find_col (filter_col c) (pl.schema df) with
                   | Some (i, d) =>
                     match pl.literal d (filter_val c) with
                     | inr lit => default false (pl.compare_cell cm (pl.cell i row) lit)
                     | inl _ => false
                     end
                   | None => false
                   end) (pl.rows df)).
  { intros cm H. destruct (pl.filter df (filter_col c) cm (filter_val c)) as [e|df2] eqn:Hf;
      [done|]. inversion H; subst df2.
    destruct (pl_filter_inr _ _ _ _ _ Hf) as (Hsch & i & d & lit & Hcol & Hlit & Hrows).
    split; [done|]. by rewrite Hrows, Hcol, Hlit. }
  destruct (String.eqb (filter_op c) ">="); [apply Hcase|].
  destruct (String.eqb (filter_op c) "<="); [apply Hcase|].
  destruct (String.eqb (filter_op c) "=="); [apply Hcase|].
  intros [= <-]. split; [done|]. symmetry. by apply filter_all.
Qed.

Lemma apply_filter_list_inr fl : forall df df',
  apply_filter_list fl df = inr df' ->
  pl.schema df' = pl.schema df /\
  pl.rows df' =
    List.filter (fun row => forallb (fun c => filter_holds (pl.schema df) c row) fl)
      (pl.rows df).
Proof.
  induction fl as [|c fl IH]; intros df df' H; simpl in H.
  - inversion H; subst. split; [done|]. symmetry. by apply filter_all.
  - destruct (if String.eqb (filter_op c) ">=" then _ else _) as [e|df1] eqn:Hstep;
      [done|]. simpl in H.
    destruct (filter_step df c df1 Hstep) as [Hsch1 Hrows1].
    destruct (IH df1 df' H) as [Hsch Hrows].
    split; [congruence|]. rewrite Hrows, Hrows1, filter_filter, Hsch1. reflexivity.
Qed.

(** X11. When the filters of a plan go through, they leave the columns as
    they are and keep, in order, exactly the rows that pass every filter:
    the filters are a conjunction, whatever their order, and a filter with
    an operator other than [>=], [<=], [==] lets every row pass. *)
Theorem filters_keep_rows_passing_all plan df df' :
  apply_filters plan df = inr df' ->
  pl.schema df' = pl.schema df /\
  pl.rows df' =
    List.filter
      (fun row => forallb (fun c => filter_holds (pl.schema df) c row)
                    (default [] (filters plan)))
      (pl.rows df).
Proof.
  rewrite apply_filters_list. apply apply_filter_list_inr.
Qed.

(** *** Row counts *)

Lemma filter_length_le {A} (f : A -> bool) l : (length (List.filter f l) <= length l)%nat.
Proof. induction l as [|x l IH]; simpl; [done|]. destruct (f x); simpl; lia. Qed.

Lemma distinct_keys_length ks : forall seen,
  (length (pl.distinct_keys ks seen) <= length ks)%nat.
Proof.
  induction ks as [|k ks IH]; intros seen; simpl; [done|].
  destruct (existsb _ seen); simpl.
  - specialize (IH seen). lia.
  - specialize (IH (k :: seen)). lia.
Qed.

Lemma apply_filters_height plan df df' :
  apply_filters plan df = inr df' -> pl.height df' <= pl.height df.
Proof.
  intros H. rewrite apply_filters_list in H.
  destruct (apply_filter_list_inr _ _ _ H) as [_ Hrows].
  unfold pl.height. rewrite Hrows.
  pose proof (filter_length_le
                (fun row => forallb (fun c => filter_holds (pl.schema df) c row)
                              (default [] (filters plan))) (pl.rows df)).
  lia.
Qed.

Lemma apply_select_height plan df df' :
  apply_select plan df = inr df' -> pl.height df' = pl.height df.
Proof.
  unfold apply_select. destruct (truthy_list (select plan)); [|by intros [= <-]].
  unfold pl.select. destruct (pl.get_cols _ df) as [e|cs]; simpl; [done|].
  destruct (pl.first_dup _); simpl; [done|].
  intros [= <-]. unfold pl.height. simpl. by rewrite length_map.
Qed.

Lemma apply_groupby_aggs_height plan df df' :
  apply_groupby_aggs plan df = inr df' -> pl.height df' <= pl.height df.
Proof.
  unfold apply_groupby_aggs.
  destruct (truthy_list (groupby plan) && truthy_list (aggs plan)); [|intros [= <-]; lia].
  unfold pl.group_by_agg. destruct (pl.get_cols _ df) as [e|ks]; simpl; [done|].
  destruct (pl.resolve_exprs _ df) as [e|rs]; simpl; [done|].
  destruct (pl.first_dup _); simpl; [done|].
  intros [= <-]. unfold pl.height. simpl. rewrite length_map.
  pose proof (distinct_keys_length
                (map (fun row => map (fun c : nat * pl.dtype => pl.cell (fst c) row) ks)
                   (pl.rows df)) []) as Hle.
  rewrite length_map in Hle. lia.
Qed.

Lemma apply_limit_height plan df : pl.height (apply_limit plan df) <= pl.height df.
Proof.
  unfold apply_limit. destruct (truthy_int (limit plan)); [|lia].
  unfold pl.limit, pl.height. simpl.
  destruct (0 <=? default 0 (limit plan)).
  - pose proof (firstn_le_length (Z.to_nat (default 0 (limit plan))) (pl.rows df)).
    rewrite length_firstn. lia.
  - rewrite length_firstn. lia.
Qed.

Lemma encode_counts fmt df :
  result_height (encode fmt df) = pl.height df /\
  metrics (encode fmt df) = (result_height (encode fmt df), result_width (encode fmt df)).
Proof.
  unfold encode. destruct (String.eqb fmt "arrow"); simpl; [done|].
  unfold pl.to_dicts, pl.height, pl.width. by rewrite !length_map.
Qed.

(** X12. A query never returns more rows than the file it loaded holds:
    no stage adds a row.  The row and column counts it reports in its
    metrics are those of the rows and fields it returns, in both
    encodings. *)
Theorem query_result_counts ds plan fmt f fl df r :
  discover_files settings fs ds (dataset plan) true None = inr (f :: fl) ->
  load (path f) None = inr df ->
  execute_query ds plan fmt = inr r ->
  result_height r <= pl.height df /\
  metrics r = (result_height r, result_width r).
Proof.
  intros Hfiles Hload.
  rewrite (execute_query_loaded settings fs read_csv read_parquet read_ndjson
             ds plan fmt f fl df Hfiles Hload).
  destruct (apply_filters plan df) as [e|df1] eqn:H1; [done|]. simpl.
  destruct (apply_select plan df1) as [e|df2] eqn:H2; [done|]. simpl.
  destruct (apply_groupby_aggs plan df2) as [e|df3] eqn:H3; [done|]. simpl.
  intros [= <-]. destruct (encode_counts fmt (apply_limit plan df3)) as [-> Hm].
  split; [|done].
  pose proof (apply_filters_height _ _ _ H1). pose proof (apply_select_height _ _ _ H2).
  pose proof (apply_groupby_aggs_height _ _ _ H3). pose proof (apply_limit_height plan df3).
  lia.
Qed.

(** *** Preview *)

Lemma slice_to_length {A} n (l : list A) :
  0 <= n -> Z.of_nat (length (slice_to n l)) <= n /\ (length (slice_to n l) <= length l)%nat.
Proof.
  intros Hn. unfold slice_to. destruct (Z.leb_spec 0 n); [|lia].
  rewrite length_firstn. lia.
Qed.

(** X13. For a limit that is not negative, zero included, [preview_data]
    returns at most [limit] rows, and never more than the rows it loaded,
    whose number it reports as [total_rows]; it passes the limit to the
    reader as the row cap. *)
Theorem preview_data_at_most_limit ds path limit r :
  0 <= limit ->
  preview_data settings fs read_csv read_parquet read_ndjson ds path limit = inr r ->
  Z.of_nat (length (preview_rows r)) <= limit /\
  Z.of_nat (length (preview_rows r)) <= preview_total_rows r /\
  exists file df,
    load file (Some limit) = inr df /\ preview_total_rows r = pl.height df /\
    preview_rows r = slice_to limit (pl.to_dicts df).
Proof.
  intros Hlim. unfold preview_data.
  destruct (if negb (truthy_str path) then _ else _) as [e|file]; simpl; [done|].
  destruct (load file (Some limit)) as [e|df] eqn:Hload; simpl; [done|].
  intros [= <-]. simpl.
  destruct (slice_to_length limit (pl.to_dicts df) Hlim) as [Hle Hle'].
  split; [done|]. split.
  - unfold pl.height. unfold pl.to_dicts in *. rewrite length_map in Hle'. lia.
  - by exists file, df.
Qed.

(** *** Data sets that cannot be used *)

Lemma filter_none {A} (f : A -> bool) l :
  (forall x, In x l -> f x = false) -> List.filter f l = [].
Proof.
  induction l as [|x l IH]; intros H; simpl; [done|].
  rewrite (H x) by (by left). apply IH. intros y Hy. apply H. by right.
Qed.

Lemma discover_files_nothing ds uri max_files :
  exists_ fs (Path_of uri) = true ->
  (forall p, In p (Path_of uri :: glob fs (Path_of uri) "**/*") ->
             eligible settings fs p = false) ->
  discover_files settings fs ds uri true max_files = inr [].
Proof.
  intros Hex Hnone. destruct (is_file fs (Path_of uri)) eqn:Hfile.
  - unfold discover_files. rewrite Hex, Hfile. simpl.
    pose proof (Hnone (Path_of uri) (or_introl eq_refl)) as Hel.
    unfold eligible in Hel. rewrite Hfile in Hel. simpl in Hel. by rewrite Hel.
  - rewrite (discover_files_directory_infos settings fs ds uri true max_files Hex Hfile).
    unfold infos. rewrite filter_none by (intros p Hp; apply Hnone; by right).
    simpl. by destruct (truthy_int max_files); [rewrite firstn_nil|].
Qed.

(** X14. A query and a schema inference over a path that does not exist
    fail with the "Path not found" error of the discovery; over a path
    that exists but holds no eligible file, the query fails with "No files
    found for dataset" and the inference with "No supported files found":
    neither returns an empty result. *)
Theorem unusable_data_set_errors ds plan fmt sample_files n :
  let uri := dataset plan in
  let infer :=
    infer_schema settings fs read_csv read_parquet read_ndjson ds uri sample_files n in
  (exists_ fs (Path_of uri) = false ->
     execute_query ds plan fmt = inl (FileNotFoundError ("Path not found: " +:+ uri)) /\
     infer = inl (FileNotFoundError ("Path not found: " +:+ uri))) /\
  (exists_ fs (Path_of uri) = true ->
   (forall p, In p (Path_of uri :: glob fs (Path_of uri) "**/*") ->
              eligible settings fs p = false) ->
     execute_query ds plan fmt = inl (ValueError "No files found for dataset") /\
     infer = inl (ValueError "No supported files found")).
Proof.
  intros uri infer. unfold infer, infer_schema, DataProcessor.execute_query. split.
  - intros Hex. unfold discover_files. fold uri. by rewrite Hex.
  - intros Hex Hnone. fold uri.
    by rewrite !(discover_files_nothing ds uri _ Hex Hnone).
Qed.

(** *** Schema inference *)

Lemma null_count_bounds l :
  0 <= pl.null_count l <= Z.of_nat (length l) /\
  (0 < pl.null_count l <-> In pl.Null l).
Proof.
  unfold pl.null_count. induction l as [|v l [IHb IHi]]; simpl.
  - split; [lia|]. split; [lia | done].
  - destruct v as [|n|s]; simpl.
    + split; [lia|]. split; [by left | lia].
    + split; [lia|]. rewrite IHi. split; [by right | by intros [H|H]].
    + split; [lia|]. rewrite IHi. split; [by right | by intros [H|H]].
Qed.

Lemma column_length col df : (length (pl.column col df) <= length (pl.rows df))%nat.
Proof.
  unfold pl.column. destruct (pl.find_col col (pl.schema df)) as [[i d]|]; simpl; [|lia].
  by rewrite length_map.
Qed.


End QueryFacts.

Section QueryWitnesses.

Import DataProcessor Sample.

Local Abbreviation run_query := (execute_query default_settings fs1 read1 read1 read1 "ds").


(** When the unknown aggregate is the only one, the stage still runs and
    returns the distinct groups alone: two rows of one column. *)
Example unknown_aggregate_alone :
  exists r,
    run_query (mkPlan "data" None None (Some ["a"]) (Some [mkAgg "b" "median"]) None None
                 (Some 50000)) "json" = inr r /\
    metrics r = (2, 1).
Proof. eexists. split; reflexivity. Qed.

Lemma filters_keep_rows_passing_all_witness :
  let plan :=
    mkPlan "data" (Some [mkFilter "b" ">=" (JInt 20); mkFilter "a" "!=" (JInt 2);
                         mkFilter "a" "<=" (JInt 1)])
      None None None None None None in
  exists df', apply_filters plan table3 = inr df' /\ pl.rows df' = [[pl.Int 1; pl.Int 30]].
Proof.
  intros plan. destruct (apply_filters plan table3) as [e|df'] eqn:H; [discriminate H|].
  destruct (filters_keep_rows_passing_all plan table3 df' H) as [_ Hrows].
  exists df'. split; [reflexivity|]. rewrite Hrows. reflexivity.
Defined.

Lemma query_result_counts_witness :
  exists r,
    run_query (QueryPlan_dict plan_sum) "json" = inr r /\
    result_height r <= 3 /\ metrics r = (result_height r, result_width r).
Proof.
  destruct (run_query (QueryPlan_dict plan_sum) "json") as [e|r] eqn:Hr; [discriminate Hr|].
  exists r. split; [reflexivity|].
  apply (query_result_counts default_settings fs1 read1 read1 read1 "ds"
           (QueryPlan_dict plan_sum) "json"
           (mk_info "data/t.jsonl" "t.jsonl" 64 0 ".jsonl") [] table3);
    [reflexivity | reflexivity | exact Hr].
Defined.

Lemma preview_data_at_most_limit_witness :
  exists r,
    preview_data default_settings fs1 read1 read1 read1 "ds" (Some "data/t.jsonl") 0 = inr r /\
    Z.of_nat (length (preview_rows r)) <= 0.
Proof.
  destruct (preview_data default_settings fs1 read1 read1 read1 "ds" (Some "data/t.jsonl") 0)
    as [e|r] eqn:Hr; [discriminate Hr|].
  exists r. split; [reflexivity|].
  by destruct (preview_data_at_most_limit default_settings fs1 read1 read1 read1
                 "ds" (Some "data/t.jsonl") 0 r (Z.le_refl 0) Hr) as [H _].
Defined.

(** The preview without a path takes the first eligible file below the
    current directory. *)
Example preview_first_file :
  preview_data default_settings fs1 read1 read1 read1 "ds" None 2 =
  inr (mk_preview [[("a", pl.Int 1); ("b", pl.Int 10)]; [("a", pl.Int 2); ("b", pl.Int 20)]]
         [("a", "Int64"); ("b", "Int64")] true 2).
Proof. reflexivity. Qed.

Lemma unusable_data_set_errors_witness :
  let fs := Dir [("docs", Dir [("notes.txt", File 3 1)])] in
  let plan uri := mkPlan uri None None None None None None (Some 50000) in
  execute_query default_settings fs read1 read1 read1 "ds" (plan "docs") "json" =
    inl (ValueError "No files found for dataset") /\
  infer_schema default_settings fs read1 read1 read1 "ds" "docs" None 20000 =
    inl (ValueError "No supported files found") /\
  execute_query default_settings fs read1 read1 read1 "ds" (plan "data") "json" =
    inl (FileNotFoundError "Path not found: data").
Proof.
  intros fs plan.
  destruct (unusable_data_set_errors default_settings fs read1 read1 read1
              "ds" (plan "docs") "json" None 20000) as [_ Hnone].
  destruct (unusable_data_set_errors default_settings fs read1 read1 read1
              "ds" (plan "data") "json" None 20000) as [Hmissing _].
  destruct Hnone as [Hq Hi]; [reflexivity | |].
  - intros p [<-|[<-|[]]]; reflexivity.
  - destruct Hmissing as [Hm _]; [reflexivity|]. by repeat split.
Defined.


Example infer_schema_sample :
  infer_schema default_settings fs1 read4 read4 read4 "ds" "data" None 20000 =
  inr (mk_inferred [("a", "Int64", false); ("b", "Int64", true)] 4 2
         [("a", (0, 4)); ("b", (1, 4))]).
Proof. reflexivity. Qed.

End QueryWitnesses.

(** ** The job endpoints and the background tasks *)

Section HandlerFacts.

Import JobManager Endpoints.

Lemma status_invariant_update now tok st stp d err ph s :
  status_invariant s ->
  In st ["pending"; "running"; "completed"; "failed"; "cancelled"] ->
  status_invariant
    (mkSystem (update_job_status now tok st stp d err (job_manager s)) ph).
Proof.
  intros Hinv Hst tok' job' Hget'. simpl in Hget'.
  destruct (decide (tok' = tok)) as [->|Hne].
  - destruct (get_job tok (job_manager s)) as [job|] eqn:Hget.
    + destruct (get_job_update now tok st stp d err _ job Hget)
        as (job'' & Hget'' & Hstatus & _).
      rewrite Hget'' in Hget'. inversion Hget'; subst job''. rewrite Hstatus.
      destruct (truthy_str err); [simpl; tauto | exact Hst].
    + rewrite get_job_update_None in Hget' by done. congruence.
  - rewrite get_job_update_ne in Hget' by done. exact (Hinv _ _ Hget').
Qed.

Lemma status_invariant_init : status_invariant Endpoints.init.
Proof. intros tok job Hget. discriminate Hget. Qed.

Lemma status_invariant_step e s s' :
  status_invariant s -> step e s = Some s' -> status_invariant s'.
Proof.
  intros Hinv Hstep. destruct e as [now ty ps|now tok msg|now tok msg d|now tok err|now tok|tok];
    simpl in Hstep.
  - inversion Hstep; subst s'; clear Hstep.
    intros tok' job' Hget'. simpl in Hget'.
    pose proof (get_job_create now ty ps (job_manager s) tok') as Hc. simpl in Hc.
    rewrite Hc in Hget'. case_decide as Heq.
    + inversion Hget'; subst job'. simpl. tauto.
    + exact (Hinv _ _ Hget').
  - case_decide as Hph; [|done]. inversion Hstep; subst s'.
    apply status_invariant_update; [done | simpl; tauto].
  - case_decide as Hph; [|done]. inversion Hstep; subst s'.
    apply status_invariant_update; [done | simpl; tauto].
  - case_decide as Hph; [|done]. inversion Hstep; subst s'.
    apply status_invariant_update; [done | simpl; tauto].
  - inversion Hstep; subst s'; clear Hstep.
    unfold JobManager.cancel_job.
    destruct (get_job tok (job_manager s)) as [job|] eqn:Hget; [|by destruct s].
    destruct (str_in _ _); [|by destruct s]. simpl.
    apply status_invariant_update; [done | simpl; tauto].
  - inversion Hstep; subst s'; clear Hstep.
    intros tok' job' Hget'. simpl in Hget'.
    rewrite get_job_expire in Hget'. case_decide; [done|]. exact (Hinv _ _ Hget').
Qed.

Lemma status_invariant_steps es : forall s s',
  status_invariant s -> steps es s = Some s' -> status_invariant s'.
Proof.
  induction es as [|e es IH]; intros s s' Hinv Hsteps; simpl in Hsteps.
  - by inversion Hsteps; subst.
  - destruct (step e s) as [s1|] eqn:Hstep; [|done].
    eapply IH; [|done]. by eapply status_invariant_step.
Qed.

(** Each event is one call on the manager. *)
Lemma step_is_call e s s' :
  step e s = Some s' -> exists c, job_manager s' = snd (exec c (job_manager s)).
Proof.
  destruct e as [now ty ps|now tok msg|now tok msg d|now tok err|now tok|tok]; simpl.
  - intros [= <-]. by exists (CreateJob now ty ps).
  - case_decide; [|done]. intros [= <-].
    by exists (UpdateJobStatus now tok "running" (Some msg) JNull None).
  - case_decide; [|done]. intros [= <-].
    by exists (UpdateJobStatus now tok "completed" (Some msg) d None).
  - case_decide; [|done]. intros [= <-].
    by exists (UpdateJobStatus now tok "failed" None JNull (Some err)).
  - intros [= <-]. by exists (CancelJob now tok).
  - intros [= <-]. by exists (Expire tok).
Qed.

Lemma well_stored_steps es : forall s s',
  well_stored (job_manager s) -> steps es s = Some s' -> well_stored (job_manager s').
Proof.
  induction es as [|e es IH]; intros s s' Hws Hsteps; simpl in Hsteps.
  - by inversion Hsteps; subst.
  - destruct (step e s) as [s1|] eqn:Hstep; [|done].
    eapply IH; [|done]. destruct (step_is_call e s s1 Hstep) as [c ->].
    by apply well_stored_exec.
Qed.

Lemma JobStatus_of_valid st :
  In st ["pending"; "running"; "completed"; "failed"; "cancelled"] ->
  exists v, JobStatus_of st = Some v /\ (v = FAILED <-> st = "failed").
Proof.
  simpl. intros [<-|[<-|[<-|[<-|[<-|[]]]]]]; eexists; (split; [reflexivity|]); split; done.
Qed.



(** *** Tasks *)

Section task_facts.

Variable settings : Settings.
Variable fs : node.
Variables read_csv read_parquet read_ndjson :
  string -> option Z -> result polars_error pl.DataFrame.
Variable polars_str : polars_error -> string.

(** An update of a stored job, as a record. *)
Lemma get_job_update_eq now tok st stp d e self job :
  get_job tok self = Some job ->
  get_job tok (update_job_status now tok st stp d e self) =
  Some (let j1 := set_status st job in
        let j2 := if truthy_str stp
                  then set_steps (JobManager.steps j1 ++
                         [mk_step (Z.of_nat (length (JobManager.steps j1)) + 1) (default "" stp) now]) j1
                  else j1 in
        let j3 := if truthy d then set_data d j2 else j2 in
        if truthy_str e then set_status "failed" (set_error e j3) else j3).
Proof.
  intros Hget. unfold update_job_status. rewrite Hget.
  by rewrite get_job_setex, decide_True.
Qed.

(** X17. [_process_discover] on a stored job, whatever its status, a
    cancelled one included: when the path exists the job ends
    ["completed"], with the two steps of the task appended and the found
    files as data; when it does not, the job ends ["failed"] with the
    "Path not found" message as error and the one step.  The jobs of the
    other tokens are untouched, and on a token without a stored job the
    task changes nothing. *)
Theorem process_discover_outcome now1 now2 tok ds uri recurse max_files jm :
  let jm' := _process_discover settings fs polars_str now1 now2 tok ds uri recurse max_files jm in
  (forall job, get_job tok jm = Some job ->
     let n := Z.of_nat (length (JobManager.steps job)) in
     let started := JobManager.steps job ++ [mk_step (n + 1) "Starting file discovery" now1] in
     match DataProcessor.discover_files settings fs ds uri recurse max_files with
     | inr files =>
       get_job tok jm' =
       Some (mk_job (JobManager.token job) (type job) "completed" (created_at job) (params job)
               (started ++
                  [mk_step (n + 2) ("Found " +:+ pretty (length files) +:+ " files") now2])
               (JDict [("files", JList (map file_info_json files))])
               (error job))
     | inl _ =>
       DataProcessor.exists_ fs (Path_of uri) = false /\
       get_job tok jm' =
       Some (mk_job (JobManager.token job) (type job) "failed" (created_at job) (params job)
               started (data job) (Some ("Path not found: " +:+ uri)))
     end) /\
  (forall tok', tok' <> tok -> get_job tok' jm' = get_job tok' jm) /\
  (get_job tok jm = None -> jm' = jm).
Proof.
  intros jm'. unfold jm', _process_discover. split; [|split].
  - intros job Hget. cbv zeta.
    pose proof (get_job_update_eq now1 tok "running" (Some "Starting file discovery")
                  JNull None jm job Hget) as Hget1.
    simpl in Hget1.
    unfold DataProcessor.discover_files.
    destruct (DataProcessor.exists_ fs (Path_of uri)) eqn:Hex; simpl.
    + match goal with
      | |- match ?r with inr _ => _ | inl _ => _ end =>
          assert (Hr : exists files, r = inr files) by (destruct (DataProcessor.is_file _ _); eauto)
      end.
      destruct Hr as [files Hr]. rewrite Hr.
      rewrite (get_job_update_eq _ _ _ _ _ _ _ _ Hget1). simpl.
      unfold set_data, set_steps, set_status. simpl. rewrite length_app. simpl.
      replace (Z.of_nat (length (JobManager.steps job) + 1) + 1)
        with (Z.of_nat (length (JobManager.steps job)) + 2) by lia.
      reflexivity.
    + split; [done|]. rewrite (get_job_update_eq _ _ _ _ _ _ _ _ Hget1). reflexivity.
  - intros tok' Hne.
    destruct (DataProcessor.discover_files _ _ _ _ _ _);
      by rewrite !get_job_update_ne.
  - intros Hnone. rewrite (get_job_update_None now1) by done.
    destruct (DataProcessor.discover_files _ _ _ _ _ _);
      by rewrite get_job_update_None.
Qed.

(** X18. A query job that asks for the arrow encoding never completes:
    the result holds a table that cannot be written to the store, so the
    completing update raises before it stores anything and the task
    records the failure.  Whatever the query gives, a stored job ends
    ["failed"], with the one step of the task and without data; when the
    query itself succeeded, the error is the serialization message. *)
Theorem arrow_query_job_fails now1 now2 tok ds plan jm job :
  get_job tok jm = Some job ->
  let query :=
    DataProcessor.execute_query settings fs read_csv read_parquet read_ndjson ds plan "arrow" in
  let jm' :=
    _process_query settings fs read_csv read_parquet read_ndjson polars_str
      now1 now2 tok ds plan "arrow" jm in
  exists job',
    get_job tok jm' = Some job' /\
    status job' = "failed" /\
    data job' = data job /\
    JobManager.steps job' =
      JobManager.steps job ++
        [mk_step (Z.of_nat (length (JobManager.steps job)) + 1) "Executing query" now1] /\
    (forall r, query = inr r ->
               JobManager.error job' = Some "Object of type Table is not JSON serializable").
Proof.
  intros Hget query jm'. unfold jm', _process_query. fold query.
  pose proof (get_job_update_eq now1 tok "running" (Some "Executing query")
                JNull None jm job Hget) as Hget1.
  simpl in Hget1.
  destruct query as [e|r] eqn:Hq.
  - rewrite (get_job_update_eq _ _ _ _ _ _ _ _ Hget1). eexists. split; [reflexivity|].
    destruct (truthy_str (Some (str_exn polars_str e))); simpl; repeat split; done.
  - destruct (execute_query_inr _ _ _ _ _ _ _ _ _ Hq) as [df ->]. simpl.
    unfold update_job_status_dumps. rewrite Hget1.
    rewrite (get_job_update_eq _ _ _ _ _ _ _ _ Hget1). eexists. split; [reflexivity|].
    simpl. repeat split; done.
Qed.

End task_facts.

Lemma process_discover_outcome_witness :
  let jm := snd (run [CreateJob "t0" "discover" JNull; CancelJob "t1" 1] JobManager.init) in
  let task := _process_discover default_settings Sample.fs5 (fun _ => "") "t2" "t3" 1 "ds" in
  status_of 1 jm = Some "cancelled" /\
  status_of 1 (task "in" true (Some 2) jm) = Some "completed" /\
  status_of 1 (task "out" true (Some 2) jm) = Some "failed".
Proof.
  intros jm task.
  pose (job := mk_job 1 "discover" "cancelled" "t0" JNull
                 [mk_step 1 "Job cancelled by user" "t1"] JNull None).
  assert (Hget : get_job 1 jm = Some job) by reflexivity.
  destruct (process_discover_outcome default_settings Sample.fs5 (fun _ => "")
              "t2" "t3" 1 "ds" "in" true (Some 2) jm) as [Hin _].
  destruct (process_discover_outcome default_settings Sample.fs5 (fun _ => "")
              "t2" "t3" 1 "ds" "out" true (Some 2) jm) as [Hout _].
  specialize (Hin job Hget). specialize (Hout job Hget).
  split; [reflexivity|]. unfold status_of, task. split.
  - revert Hin. cbv zeta.
    destruct (DataProcessor.discover_files default_settings Sample.fs5 "ds" "in" true (Some 2))
      as [e|files] eqn:Hfiles; [discriminate Hfiles|].
    by intros ->.
  - revert Hout. cbv zeta.
    destruct (DataProcessor.discover_files default_settings Sample.fs5 "ds" "out" true (Some 2))
      as [e|files] eqn:Hfiles; [|discriminate Hfiles].
    by intros [_ ->].
Defined.

Lemma arrow_query_job_fails_witness :
  let jm := snd (create_job "t0" "query" JNull JobManager.init) in
  let jm' := _process_query default_settings Sample.fs1 Sample.read1 Sample.read1 Sample.read1
               (fun _ => "") "t1" "t2" 1 "ds" (QueryPlan_dict Sample.plan_sum) "arrow" jm in
  exists job',
    get_job 1 jm' = Some job' /\ status job' = "failed" /\
    JobManager.error job' = Some "Object of type Table is not JSON serializable".
Proof.
  intros jm jm'.
  destruct (arrow_query_job_fails default_settings Sample.fs1 Sample.read1 Sample.read1
              Sample.read1 (fun _ => "") "t1" "t2" 1 "ds" (QueryPlan_dict Sample.plan_sum) jm
              (mk_job 1 "query" "pending" "t0" JNull [] JNull None) eq_refl)
    as (job' & Hget & Hstatus & _ & _ & Herror).
  exists job'. split; [exact Hget|]. split; [exact Hstatus|].
  eapply Herror. reflexivity.
Defined.

(** With the row-major encoding the same job completes. *)
Example json_query_job_completes :
  status_of 1
    (_process_query default_settings Sample.fs1 Sample.read1 Sample.read1 Sample.read1
       (fun _ => "") "t1" "t2" 1 "ds" (QueryPlan_dict Sample.plan_sum) "json"
       (snd (create_job "t0" "query" JNull JobManager.init))) = Some "completed".
Proof. reflexivity. Qed.

End HandlerFacts.

(** ** The allow-list *)

Section SettingsFacts.

Import DataProcessor.

Lemma lower_ascii_idem c : lower_ascii (lower_ascii c) = lower_ascii c.
Proof. destruct c as [[] [] [] [] [] [] [] []]; reflexivity. Qed.

Lemma lower_idem s : lower (lower s) = lower s.
Proof. induction s as [|c s IH]; simpl; [done|]. by rewrite lower_ascii_idem, IH. Qed.

(** X19. The suffix of a file is lower-cased before it is looked up in
    the allow-list and the entries are not: an entry with an upper-case
    letter admits no file, and under an allow-list of such entries only,
    discovery finds nothing, whatever the tree holds. *)
Theorem upper_case_allow_list_finds_nothing settings fs ds uri recurse max_files files :
  (forall e, In e (allowed_extensions_list settings) -> lower e <> e) ->
  discover_files settings fs ds uri recurse max_files = inr files ->
  files = [].
Proof.
  intros Hupper Hfiles. destruct files as [|d files]; [done|]. exfalso.
  destruct (discover_files_described settings fs ds uri recurse max_files _ d Hfiles)
    as (p & sz & mt & _ & _ & Hallowed); [by left|].
  apply (Hupper _ Hallowed), lower_idem.
Qed.

Lemma upper_case_allow_list_finds_nothing_witness :
  discover_files (mkSettings 50000 20000 ".CSV, .Parquet") Sample.fs5 "ds" "in" true None
  = inr [].
Proof.
  destruct (discover_files (mkSettings 50000 20000 ".CSV, .Parquet") Sample.fs5 "ds" "in"
              true None) as [e|files] eqn:Hfiles; [discriminate Hfiles|].
  f_equal.
  apply (upper_case_allow_list_finds_nothing (mkSettings 50000 20000 ".CSV, .Parquet")
           Sample.fs5 "ds" "in" true None files); [|exact Hfiles].
  intros e [<-|[<-|[]]]; discriminate.
Defined.

End SettingsFacts.
